(** * kiro-workers: the download utility and the task/issue synchronisation engine

    [Download] embeds [src/shared/utils/download.ts] ([downloadFile],
    [getPlatform]) together with the [Platform], [Architecture] and
    [PlatformInfo] types of the shared type module.  The numbers the code
    handles there ([maxRetries], [retryDelayMs], [attempt], HTTP status codes)
    are counts and milliseconds: they are read as integers ([Z]) and a template
    literal prints them in decimal.

    [TaskSync] is the engine the specification describes (task parser, issue
    synchronizer, status reconciler, cross-repo tagger).  The repository has
    no code for it, so it is modelled from the specification's text.

    The definitions come first; the facts about them follow, the download
    utility before the engine. *)

From Stdlib Require Import ZArith List String Ascii Bool Lia DecimalString.
Import ListNotations.
Open Scope string_scope.
Open Scope Z_scope.

(* ================================================================== *)
(** ** JavaScript strings *)

Module JsString.

(** [`${n}`] for an integer-valued number. *)
Definition show (n : Z) : string := NilZero.string_of_int (Z.to_int n).

(** [s.includes(sub)]: [sub] occurs somewhere in [s]. *)
Fixpoint includes (s sub : string) : bool :=
  if prefix sub s then true
  else match s with
       | EmptyString => false
       | String _ s' => includes s' sub
       end.

End JsString.

(* ================================================================== *)
(** ** src/shared/utils/download.ts *)

Module Download.
Import JsString.

Definition DEFAULT_MAX_RETRIES : Z := 3.
Definition DEFAULT_RETRY_DELAY_MS : Z := 1000.
Definition BACKOFF_MULTIPLIER : Z := 2.

(** What the function does to the outside world, in the order it does it. *)
Inductive event : Type :=
| core_info (message : string)
| core_warning (message : string)
| sleep (ms : Z)
| client_get (url : string)
| fs_mkdirSync (parentOf : string)
| fs_writeStream (destPath : string).

(** The part of an HTTP response the caller can look at.  [headers] is where a
    server puts its rate-limit reset signal ([Retry-After] and the like). *)
Record response : Type := {
  statusCode : Z;
  statusMessage : string;
  headers : list (string * string)
}.

Inductive http_reply : Type :=
| Rejected (message : string)   (* [client.get] rejects: a network error *)
| Resolved (res : response).

(** What the world answers during one attempt: the reply to [client.get], whether
    the destination directory exists, and whether [fs.mkdirSync] or the
    streaming pipeline throw. *)
Record attempt_io : Type := {
  reply : http_reply;
  destDirExists : bool;
  mkdirThrows : option string;
  pipelineThrows : option string
}.

(** The world: the answers seen by attempt 0, 1, 2, ... *)
Definition world : Type := nat -> attempt_io.

(** How a call ends.  The three [throw] statements of the function are kept
    apart: line 119 rethrows the caught error itself, line 124 wraps it, line
    132 is the throw after the loop. *)
Inductive outcome : Type :=
| Returns
| ThrowsLastError (message : string)
| ThrowsRetriesExhausted (message : string)
| ThrowsUnknownReason.

Definition error_message (o : outcome) : option string :=
  match o with
  | Returns => None
  | ThrowsLastError m => Some m
  | ThrowsRetriesExhausted m => Some m
  | ThrowsUnknownReason => Some "Download failed for unknown reason"
  end.

(** Where the body of [try] ends. *)
Inductive try_result : Type :=
| Completed
| Caught (message : string).

(** Lines 85-89: the back-off before every attempt but the first. *)
Definition backoff_delay (retryDelayMs attempt : Z) : Z :=
  retryDelayMs * BACKOFF_MULTIPLIER ^ (attempt - 1).

Definition backoff (maxRetries retryDelayMs attempt : Z) : list event :=
  if 0 <? attempt then
    let delay := backoff_delay retryDelayMs attempt in
    [ core_info ("Retry attempt " ++ show attempt ++ "/" ++ show maxRetries
                 ++ " after " ++ show delay ++ "ms delay...");
      sleep delay ]
  else [].

(** Lines 95-110: what follows [await client.get(url)]. *)
Definition receive (destPath : string) (io : attempt_io) : list event * try_result :=
  match reply io with
  | Rejected m => ([], Caught m)
  | Resolved res =>
      if statusCode res =? 200 then
        let mk := if destDirExists io then [] else [fs_mkdirSync destPath] in
        match (if destDirExists io then None else mkdirThrows io) with
        | Some m => (mk, Caught m)
        | None =>
            match pipelineThrows io with
            | Some m => ((mk ++ [fs_writeStream destPath])%list, Caught m)
            | None =>
                ((mk ++ [fs_writeStream destPath;
                         core_info ("Successfully downloaded to " ++ destPath)])%list,
                 Completed)
            end
        end
      else
        ([], Caught ("HTTP " ++ show (statusCode res) ++ ": " ++ statusMessage res))
  end.

(** Lines 84-110: the [try] block of one attempt. *)
Definition try_block (url destPath : string) (maxRetries retryDelayMs attempt : Z)
    (io : attempt_io) : list event * try_result :=
  let (evs, r) := receive destPath io in
  ((backoff maxRetries retryDelayMs attempt
      ++ [core_info ("Downloading from " ++ url ++ "..."); client_get url]
      ++ evs)%list,
   r).

(** Line 118: the errors that are not retried. *)
Definition nonRetryable (message : string) : bool :=
  includes message "HTTP 4" && negb (includes message "429").

(** Lines 111-128: the [catch] block; [None] lets the loop go on. *)
Definition catch_block (maxRetries attempt : Z) (message : string)
    : list event * option outcome :=
  let w := core_warning ("Download attempt " ++ show (attempt + 1) ++ "/"
                         ++ show (maxRetries + 1) ++ " failed: " ++ message) in
  if nonRetryable message then ([w], Some (ThrowsLastError message))
  else if maxRetries <=? attempt then
    ([w], Some (ThrowsRetriesExhausted
                  ("Failed to download after " ++ show (maxRetries + 1)
                   ++ " attempts: " ++ message)))
  else ([w], None).

(** Lines 83-132: the [for] loop from [attempt] on, and the throw behind it.
    [fuel] bounds the iterations; [None] is a run that would need more. *)
Fixpoint for_loop (fuel : nat) (w : world) (url destPath : string)
    (maxRetries retryDelayMs attempt : Z) : option (list event * outcome) :=
  if attempt <=? maxRetries then
    match fuel with
    | O => None
    | S fuel' =>
        let (evs, r) :=
          try_block url destPath maxRetries retryDelayMs attempt (w (Z.to_nat attempt)) in
        match r with
        | Completed => Some (evs, Returns)
        | Caught m =>
            let (wevs, thrown) := catch_block maxRetries attempt m in
            match thrown with
            | Some o => Some ((evs ++ wevs)%list, o)
            | None =>
                match for_loop fuel' w url destPath maxRetries retryDelayMs (attempt + 1) with
                | Some (rest, o) => Some ((evs ++ wevs ++ rest)%list, o)
                | None => None
                end
            end
        end
    end
  else Some ([], ThrowsUnknownReason).

(** [downloadFile(url, destPath, maxRetries, retryDelayMs)] in the world [w]. *)
Definition downloadFile (w : world) (url destPath : string) (maxRetries retryDelayMs : Z)
    : option (list event * outcome) :=
  for_loop (Z.to_nat (maxRetries + 1)) w url destPath maxRetries retryDelayMs 0.

(** [downloadFile(url, destPath)], the two last parameters at their defaults. *)
Definition downloadFile_defaults (w : world) (url destPath : string)
    : option (list event * outcome) :=
  downloadFile w url destPath DEFAULT_MAX_RETRIES DEFAULT_RETRY_DELAY_MS.

(** The error an attempt ends with, if it does not complete. *)
Definition attempt_error (destPath : string) (io : attempt_io) : option string :=
  match snd (receive destPath io) with
  | Completed => None
  | Caught m => Some m
  end.

(** Attempt [j] fails with an error the [catch] block lets through. *)
Definition fails_retryably (w : world) (destPath : string) (j : nat) : Prop :=
  exists m, attempt_error destPath (w j) = Some m /\ nonRetryable m = false.

(** The delays slept before the attempts [a], [a+1], ..., [a+n-1]. *)
Definition retry_delays (retryDelayMs : Z) (a n : nat) : list Z :=
  flat_map
    (fun j => if 0 <? Z.of_nat j then [backoff_delay retryDelayMs (Z.of_nat j)] else [])
    (seq a n).

(** Readings of a trace. *)
Definition is_get (e : event) : bool :=
  match e with client_get _ => true | _ => false end.

Definition requests (tr : list event) : nat := List.length (filter is_get tr).

Fixpoint delays (tr : list event) : list Z :=
  match tr with
  | [] => []
  | sleep ms :: tr' => ms :: delays tr'
  | _ :: tr' => delays tr'
  end.

(** More readings of a trace: the waiting time in all, the calls of [fs], the
    warnings. *)
Definition total_delay (tr : list event) : Z := fold_right Z.add 0 (delays tr).

Definition is_fs (e : event) : bool :=
  match e with fs_mkdirSync _ | fs_writeStream _ => true | _ => false end.

Definition is_mkdir (e : event) : bool :=
  match e with fs_mkdirSync _ => true | _ => false end.

Definition is_warning (e : event) : bool :=
  match e with core_warning _ => true | _ => false end.

Definition warnings (tr : list event) : nat := List.length (filter is_warning tr).

(** The text of the error thrown at line 96 behind "HTTP ". *)
Definition statusLine (res : response) : string :=
  show (statusCode res) ++ ": " ++ statusMessage res.

(** What the outcome [o] of a call says about attempt [k], the last one made:
    it completed; or it failed with an error that is not retried, which is
    thrown as it is; or it failed with an error that is retried while no retry
    was left, and the error thrown wraps it. *)
Definition decided_by (w : world) (destPath : string) (maxRetries : Z) (k : nat)
    (o : outcome) : Prop :=
  match o with
  | Returns => attempt_error destPath (w k) = None
  | ThrowsLastError msg =>
      attempt_error destPath (w k) = Some msg /\ nonRetryable msg = true
  | ThrowsRetriesExhausted full =>
      Z.of_nat k = maxRetries /\
      exists msg,
        attempt_error destPath (w k) = Some msg /\ nonRetryable msg = false /\
        full = "Failed to download after " ++ show (maxRetries + 1)
               ++ " attempts: " ++ msg
  | ThrowsUnknownReason => False
  end.

(** A string without the character [c]. *)
Definition lacks (c : ascii) (s : string) : bool :=
  forallb (fun a => negb (Ascii.eqb a c)) (list_ascii_of_string s).

(** Two answers that differ at most in the headers of the response. *)
Definition agree_up_to_headers (io io' : attempt_io) : Prop :=
  match reply io, reply io' with
  | Rejected m, Rejected m' => m = m'
  | Resolved r, Resolved r' =>
      statusCode r = statusCode r' /\ statusMessage r = statusMessage r'
  | _, _ => False
  end /\
  destDirExists io = destDirExists io' /\
  mkdirThrows io = mkdirThrows io' /\
  pipelineThrows io = pipelineThrows io'.

(** *** Platform detection (lines 160-194) *)

Inductive Platform : Type := linux | darwin | win32.
Inductive Architecture : Type := x64 | arm64.

Record PlatformInfo : Type := {
  platform : Platform;
  arch : Architecture
}.

(** The members of the two union types, as [process.platform] and
    [process.arch] spell them. *)
Definition supportedPlatforms : list string := ["linux"; "darwin"; "win32"].
Definition supportedArchitectures : list string := ["x64"; "arm64"].

Definition Platform_string (p : Platform) : string :=
  match p with linux => "linux" | darwin => "darwin" | win32 => "win32" end.

Definition Architecture_string (a : Architecture) : string :=
  match a with x64 => "x64" | arm64 => "arm64" end.

Inductive thrown (A : Type) : Type :=
| Value (a : A)
| Error (message : string).
Arguments Value {A} a.
Arguments Error {A} message.

(** [getPlatform()], with [process.platform] and [process.arch] as arguments. *)
Definition getPlatform (nodePlatform nodeArch : string) : thrown PlatformInfo :=
  match
    (if nodePlatform =? "linux" then Value linux
     else if nodePlatform =? "darwin" then Value darwin
     else if nodePlatform =? "win32" then Value win32
     else Error ("Unsupported platform: " ++ nodePlatform))%string
  with
  | Error m => Error m
  | Value p =>
      match
        (if nodeArch =? "x64" then Value x64
         else if nodeArch =? "arm64" then Value arm64
         else Error ("Unsupported architecture: " ++ nodeArch))%string
      with
      | Error m => Error m
      | Value a => Value {| platform := p; arch := a |}
      end
  end.

End Download.

(* ================================================================== *)
(** ** The worlds of the test-suite
    ([src/shared/utils/download.properties.test.ts]) *)

Module DownloadScenarios.
Import Download.

Definition url : string := "https://example.com/file.bin".
Definition destPath : string := "/tmp/file.bin".

Definition answer (r : http_reply) : attempt_io :=
  {| reply := r; destDirExists := true; mkdirThrows := None; pipelineThrows := None |}.

(** [mockHttpClientGet.mockRejectedValue(new Error(errorMessage))] *)
Definition alwaysRejects (errorMessage : string) : world :=
  fun _ => answer (Rejected errorMessage).

(** [mockHttpClientGet.mockResolvedValue(errorResponse)] *)
Definition alwaysStatus (code : Z) (message : string) : world :=
  fun _ => answer (Resolved {| statusCode := code; statusMessage := message; headers := [] |}).

(** [mockResolvedValueOnce(rateLimitResponse).mockResolvedValueOnce(successResponse)],
    the 429 carrying the server's [Retry-After] (in seconds). *)
Definition rateLimitedOnce (retryAfter : string) : world :=
  fun attempt =>
    match attempt with
    | O => answer (Resolved {| statusCode := 429; statusMessage := "Too Many Requests";
                               headers := [("retry-after", retryAfter)] |})
    | S _ => answer (Resolved {| statusCode := 200; statusMessage := "OK"; headers := [] |})
    end.

(** What is slept and how the call ends. *)
Definition slept_and_ended (run : option (list event * outcome)) : option (list Z * outcome) :=
  option_map (fun r => (delays (fst r), snd r)) run.

End DownloadScenarios.

(* ================================================================== *)
(** ** The task/issue synchronisation engine

    The repository holds no code of the engine: its files are the download
    utility, its tests, the shared types and prose.  Every definition of
    [TaskSync] is therefore written from the specification (sections 3, 4, 6
    and 7), and says so. *)

Module TaskSync.
Local Open Scope nat_scope.

(** *** Data model (section 3) *)

(** Modelled from the spec: the three-valued [status] of a TaskRecord. *)
Inductive TaskStatus : Type := not_started | in_progress | completed.

(** Modelled from the spec: the [state] of an IssueRecord. *)
Inductive IssueState : Type := open | closed.

(** Modelled from the spec: TaskRecord, the parsed form of one checklist entry
    (the parser is missing from the repository). *)
Record TaskRecord : Type := {
  specName : string;
  taskId : string;
  title : string;
  description : string;
  status : TaskStatus;
  requirementRefs : list string;
  isOptional : bool;
  parentTaskId : option string;
  sourceFile : string;
  sourceLineRange : nat * nat
}.

(** Modelled from the spec: IssueRecord, as the remote tracker holds it;
    [updatedAt] is the issue's last-updated timestamp that two-way
    reconciliation compares. *)
Record IssueRecord : Type := {
  number : nat;
  issueTitle : string;
  body : string;
  state : IssueState;
  labels : list string;
  sourceRepo : string;
  updatedAt : nat
}.

(** Modelled from the spec: SyncKey = (specName, taskId, repoIdentifier); the
    repository identifier is part of the key when cross-repo mode is on. *)
Definition SyncKey : Type := (string * string * option string)%type.

Definition option_string_eqb (a b : option string) : bool :=
  match a, b with
  | Some x, Some y => String.eqb x y
  | None, None => true
  | _, _ => false
  end.

Definition SyncKey_eqb (k1 k2 : SyncKey) : bool :=
  let '(s1, t1, r1) := k1 in
  let '(s2, t2, r2) := k2 in
  String.eqb s1 s2 && String.eqb t1 t2 && option_string_eqb r1 r2.

(** *** TaskParser (sections 4.2 and 6) *)

Definition is_blank (c : ascii) : bool :=
  Ascii.eqb c " " || Ascii.eqb c "009".

Definition is_digit (c : ascii) : bool :=
  Ascii.leb "0" c && Ascii.leb c "9".

(** Leading whitespace of a line: its depth and what follows it. *)
Fixpoint leading_whitespace (s : string) : nat * string :=
  match s with
  | String c s' =>
      if is_blank c then let (n, r) := leading_whitespace s' in (S n, r) else (0, s)
  | EmptyString => (0, s)
  end.

Fixpoint strip_prefix (p s : string) : option string :=
  match p with
  | EmptyString => Some s
  | String a p' =>
      match s with
      | String b s' => if Ascii.eqb a b then strip_prefix p' s' else None
      | EmptyString => None
      end
  end.

(** The text up to the first [sep], and the text behind it. *)
Fixpoint split_at (sep : ascii) (s : string) : string * string :=
  match s with
  | EmptyString => (EmptyString, EmptyString)
  | String c s' =>
      if Ascii.eqb c sep then (EmptyString, s')
      else let (t, r) := split_at sep s' in (String c t, r)
  end.

Fixpoint split_on (sep : ascii) (s : string) : list string :=
  match s with
  | EmptyString => [EmptyString]
  | String c s' =>
      if Ascii.eqb c sep then EmptyString :: split_on sep s'
      else match split_on sep s' with
           | cur :: more => String c cur :: more
           | [] => [String c EmptyString]
           end
  end.

(** A token without its last character when that is [c]. *)
Fixpoint drop_trailing (c : ascii) (tok : string) : string * bool :=
  match tok with
  | EmptyString => (EmptyString, false)
  | String a EmptyString => if Ascii.eqb a c then (EmptyString, true) else (tok, false)
  | String a t => let (r, found) := drop_trailing c t in (String a r, found)
  end.

(** Modelled from the spec: a task id is a dotted hierarchical string such as
    "3.2.1": digits and dots, a digit first. *)
Definition is_task_id (s : string) : bool :=
  match s with
  | EmptyString => false
  | String c _ =>
      is_digit c
      && forallb (fun a => is_digit a || Ascii.eqb a ".") (list_ascii_of_string s)
  end.

(** Modelled from the spec: the shapes of a line of a task file (section 6):
    a checklist line [- [ ] ...] or [- [x] ...] at some indentation, the
    annotation line [_Requirements: a, b_], anything else. *)
Inductive LineShape : Type :=
| ChecklistLine (indent : nat) (checked : bool) (rest : string)
| RequirementsLine (refs : list string)
| OtherLine.

Definition classify (line : string) : LineShape :=
  let (indent, text) := leading_whitespace line in
  match strip_prefix "- [ ] " text with
  | Some rest => ChecklistLine indent false rest
  | None =>
      match strip_prefix "- [x] " text with
      | Some rest => ChecklistLine indent true rest
      | None =>
          match strip_prefix "_Requirements: " text with
          | Some refs =>
              RequirementsLine
                (map (fun r => snd (leading_whitespace r))
                     (split_on "," (fst (drop_trailing "_" refs))))
          | None => OtherLine
          end
      end
  end.

(** Modelled from the spec: what follows the checkbox is [<id> <title>], the id
    optionally followed by [*]; [None] is the line with no id. *)
Definition task_fields (rest : string) : option (string * bool * string) :=
  let (token, ttl) := split_at " " rest in
  let (id, optional) := drop_trailing "*" token in
  if is_task_id id then Some (id, optional, ttl) else None.

(** Modelled from the spec: the warnings of the parser (section 7, ParseError),
    with the number of the line that was skipped. *)
Inductive ParseWarning : Type :=
| MissingId (line : nat)
| DuplicateId (line : nat) (id : string).

(** The parser's state: the records parsed so far with their indentation, the
    warnings logged so far, both most recent first. *)
Record ParserState : Type := {
  parsed : list (nat * TaskRecord);
  warned : list ParseWarning
}.

Definition seen (id : string) (st : ParserState) : bool :=
  existsb (fun p => String.eqb id (taskId (snd p))) (parsed st).

(** Modelled from the spec: a line is the child of the nearest preceding task
    line with strictly smaller indentation. *)
Definition parent_of (indent : nat) (st : ParserState) : option string :=
  option_map (fun p => taskId (snd p)) (find (fun p => fst p <? indent) (parsed st)).

Section Parser.

(** The side channel that marks a task as in progress (the checkbox has two
    values, the status three); the spec leaves its form open. *)
Variable inProgressMarker : string -> bool.
Variables spec file : string.

Definition status_of (checked : bool) (id : string) : TaskStatus :=
  if checked then completed
  else if inProgressMarker id then in_progress else not_started.

(** Modelled from the spec: one line of the file.  A checklist line without id
    or with an id already parsed in this file is skipped with a warning; a
    requirements line is attached to the most recently parsed task. *)
Definition parse_line (st : ParserState) (lineno : nat) (line : string) : ParserState :=
  match classify line with
  | ChecklistLine indent checked rest =>
      match task_fields rest with
      | None =>
          {| parsed := parsed st; warned := MissingId lineno :: warned st |}
      | Some (id, optional, ttl) =>
          if seen id st then
            {| parsed := parsed st; warned := DuplicateId lineno id :: warned st |}
          else
            {| parsed :=
                 (indent,
                  {| specName := spec; taskId := id; title := ttl;
                     description := EmptyString;
                     status := status_of checked id;
                     requirementRefs := [];
                     isOptional := optional;
                     parentTaskId := parent_of indent st;
                     sourceFile := file;
                     sourceLineRange := (lineno, lineno) |}) :: parsed st;
               warned := warned st |}
      end
  | RequirementsLine refs =>
      match parsed st with
      | (indent, t) :: older =>
          {| parsed :=
               (indent,
                {| specName := specName t; taskId := taskId t; title := title t;
                   description := description t; status := status t;
                   requirementRefs := refs;
                   isOptional := isOptional t;
                   parentTaskId := parentTaskId t;
                   sourceFile := sourceFile t;
                   sourceLineRange := (fst (sourceLineRange t), lineno) |}) :: older;
             warned := warned st |}
      | [] => st
      end
  | OtherLine => st
  end.

Fixpoint parse_from (st : ParserState) (lineno : nat) (lines : list string) : ParserState :=
  match lines with
  | [] => st
  | line :: more => parse_from (parse_line st lineno line) (S lineno) more
  end.

(** Modelled from the spec: the TaskParser's result for one file, in document
    order, with the warnings it logged. *)
Definition parseLines (lines : list string) : list TaskRecord * list ParseWarning :=
  let st := parse_from {| parsed := []; warned := [] |} 1 lines in
  (rev (map snd (parsed st)), rev (warned st)).

Definition parseTasks (text : string) : list TaskRecord * list ParseWarning :=
  parseLines (split_on "010" text).

End Parser.

(** What the spec calls a well-formed and a malformed line, said of the file
    and not of the parser: the id a checklist line carries, and whether an
    earlier line of the file carries the same id. *)
Definition is_checklist (line : string) : bool :=
  match classify line with ChecklistLine _ _ _ => true | _ => false end.

Definition line_id (line : string) : option string :=
  match classify line with
  | ChecklistLine _ _ rest =>
      match task_fields rest with
      | Some (id, _, _) => Some id
      | None => None
      end
  | _ => None
  end.

Definition id_taken (id : string) (earlier : list string) : bool :=
  existsb (fun l => option_string_eqb (line_id l) (Some id)) earlier.

Definition well_formed (earlier : list string) (line : string) : bool :=
  match line_id line with
  | Some id => negb (id_taken id earlier)
  | None => false
  end.

Definition malformed (earlier : list string) (line : string) : bool :=
  is_checklist line && negb (well_formed earlier line).

(** The ids the parser has seen are the ids of the lines it has read. *)
Definition reads (st : ParserState) (earlier : list string) : Prop :=
  forall id, seen id st = id_taken id earlier.

(** The lines of a file that satisfy [p], each judged against the lines before. *)
Fixpoint count_lines (p : list string -> string -> bool) (earlier lines : list string) : nat :=
  match lines with
  | [] => 0
  | line :: more =>
      (if p earlier line then 1 else 0) + count_lines p (earlier ++ [line])%list more
  end.

(** *** Keys and labels (sections 3, 4.5 and 6) *)

(** Modelled from the spec: the sync configuration of a run: the repository
    it runs in, whether cross-repo mode is on, and the sync mode. *)
Inductive SyncMode : Type := one_way | two_way.

Record Config : Type := {
  repoIdentifier : string;
  crossRepo : bool;
  mode : SyncMode
}.

Definition syncKey (cfg : Config) (t : TaskRecord) : SyncKey :=
  (specName t, taskId t, if crossRepo cfg then Some (repoIdentifier cfg) else None).

(** Modelled from the spec: the labels that encode a key: [spec:<name>],
    [task:<id>] and, in cross-repo mode, [repo:<identifier>]. *)
Definition keyLabels (k : SyncKey) : list string :=
  let '(s, t, r) := k in
  ("spec:" ++ s) :: ("task:" ++ t)
    :: match r with Some repo => ["repo:" ++ repo] | None => [] end.

(** The value of the first label that starts with [prefix]. *)
Fixpoint labelValue (prefix : string) (ls : list string) : option string :=
  match ls with
  | [] => None
  | l :: more =>
      match strip_prefix prefix l with
      | Some v => Some v
      | None => labelValue prefix more
      end
  end.

(** Modelled from the spec: the key an issue is tagged with, read off its
    labels (the tracker-side search of sections 3 and 4.3). *)
Definition issueKey (i : IssueRecord) : option SyncKey :=
  match labelValue "spec:" (labels i), labelValue "task:" (labels i) with
  | Some s, Some t => Some (s, t, labelValue "repo:" (labels i))
  | _, _ => None
  end.

Definition tagged (k : SyncKey) (i : IssueRecord) : bool :=
  match issueKey i with
  | Some k' => SyncKey_eqb k' k
  | None => false
  end.

(** *** The tracker (section 6: the abstract tracker client) *)

(** Modelled from the spec: the remote tracker the client talks to: its
    issues and the time of its clock. *)
Record Tracker : Type := {
  issues : list IssueRecord;
  clock : nat
}.

(** Modelled from the spec: the local store of one repository: the tasks its
    files parse to and the modification time of each file. *)
Record Repo : Type := {
  tasks : list TaskRecord;
  fileModified : string -> nat
}.

(** Modelled from the spec: the writes of the engine: the tracker client's
    [createIssue] and [updateIssue], the reconciler's change of an issue's
    state, and its rewrite of a checkbox in a task file. *)
Inductive Write : Type :=
| CreateIssue (ttl bdy : string) (lbls : list string)
| UpdateIssue (n : nat) (ttl bdy : string) (lbls : list string)
| SetIssueState (n : nat) (s : IssueState)
| RewriteCheckbox (spec id : string) (s : TaskStatus).

(** Modelled from the spec: the tracker-side search for the issues tagged with
    a key, the number the tracker gives a new issue, and the client's calls. *)
Definition searchByKey (tr : Tracker) (k : SyncKey) : list IssueRecord :=
  filter (tagged k) (issues tr).

Definition freshNumber (tr : Tracker) : nat :=
  S (list_max (map number (issues tr))).

Definition createIssue (repo : string) (tr : Tracker) (ttl bdy : string)
    (lbls : list string) : Tracker :=
  {| issues :=
       (issues tr
        ++ [{| number := freshNumber tr; issueTitle := ttl; body := bdy;
               state := open; labels := lbls; sourceRepo := repo;
               updatedAt := clock tr |}])%list;
     clock := S (clock tr) |}.

Definition updateIssue (tr : Tracker) (n : nat) (ttl bdy : string)
    (lbls : list string) : Tracker :=
  {| issues :=
       map (fun i =>
              if number i =? n then
                {| number := number i; issueTitle := ttl; body := bdy;
                   state := state i; labels := lbls; sourceRepo := sourceRepo i;
                   updatedAt := clock tr |}
              else i)
           (issues tr);
     clock := S (clock tr) |}.

Definition setIssueState (tr : Tracker) (n : nat) (s : IssueState) : Tracker :=
  {| issues :=
       map (fun i =>
              if number i =? n then
                {| number := number i; issueTitle := issueTitle i; body := body i;
                   state := s; labels := labels i; sourceRepo := sourceRepo i;
                   updatedAt := clock tr |}
              else i)
           (issues tr);
     clock := S (clock tr) |}.

(** Modelled from the spec: the rewrite of a checkbox.  Only the status of the
    task changes, and the file is stamped with the time of the write. *)
Definition rewriteCheckbox (now : nat) (r : Repo) (spec id : string) (s : TaskStatus) : Repo :=
  {| tasks :=
       map (fun t =>
              if String.eqb (specName t) spec && String.eqb (taskId t) id then
                {| specName := specName t; taskId := taskId t; title := title t;
                   description := description t; status := s;
                   requirementRefs := requirementRefs t;
                   isOptional := isOptional t; parentTaskId := parentTaskId t;
                   sourceFile := sourceFile t;
                   sourceLineRange := sourceLineRange t |}
              else t)
           (tasks r);
     fileModified :=
       fun f =>
         if existsb (fun t => String.eqb (specName t) spec && String.eqb (taskId t) id
                              && String.eqb (sourceFile t) f) (tasks r)
         then now else fileModified r f |}.

Definition applyWrite (cfg : Config) (st : Tracker * Repo) (w : Write) : Tracker * Repo :=
  let (tr, r) := st in
  match w with
  | CreateIssue ttl bdy lbls => (createIssue (repoIdentifier cfg) tr ttl bdy lbls, r)
  | UpdateIssue n ttl bdy lbls => (updateIssue tr n ttl bdy lbls, r)
  | SetIssueState n s => (setIssueState tr n s, r)
  | RewriteCheckbox spec id s =>
      ({| issues := issues tr; clock := S (clock tr) |}, rewriteCheckbox (clock tr) r spec id s)
  end.

(** Modelled from the spec: of several issues with the same key the
    lowest-numbered is the canonical one (section 4.3). *)
Fixpoint canonical (found : list IssueRecord) : option IssueRecord :=
  match found with
  | [] => None
  | i :: more =>
      match canonical more with
      | Some j => if number j <? number i then Some j else Some i
      | None => Some i
      end
  end.

(** Modelled from the spec: the SyncMapping, SyncKey -> issue. *)
Definition mappedIssue (tr : Tracker) (k : SyncKey) : option IssueRecord :=
  canonical (searchByKey tr k).

(** *** IssueSynchronizer (section 4.3) and StatusReconciler (section 4.4) *)

Section Engine.

(** The normalisation under which title and body are compared, and the fixed
    template of the body over spec name, task id, description and requirement
    references: the spec names both and fixes neither. *)
Variable normalize : string -> string.
Variable template : string -> string -> string -> list string -> string.

Definition desiredTitle (t : TaskRecord) : string := taskId t ++ " " ++ title t.

Definition desiredBody (t : TaskRecord) : string :=
  template (specName t) (taskId t) (description t) (requirementRefs t).

Definition upToDate (i : IssueRecord) (t : TaskRecord) : bool :=
  String.eqb (normalize (issueTitle i)) (normalize (desiredTitle t))
  && String.eqb (normalize (body i)) (normalize (desiredBody t)).

(** Modelled from the spec: the synchronizer's decision for one task, from the
    issues the search returned: create when there is none, update the canonical
    one on a real difference, else nothing. *)
Definition decideSync (cfg : Config) (found : list IssueRecord) (t : TaskRecord)
    : option Write :=
  match canonical found with
  | None =>
      Some (CreateIssue (desiredTitle t) (desiredBody t) (keyLabels (syncKey cfg t)))
  | Some i =>
      if upToDate i t then None
      else Some (UpdateIssue (number i) (desiredTitle t) (desiredBody t) (labels i))
  end.

(** Modelled from the spec: the states the two sides map to. *)
Definition stateFor (s : TaskStatus) : IssueState :=
  match s with completed => closed | _ => open end.

Definition statusFor (s : IssueState) : TaskStatus :=
  match s with closed => completed | open => in_progress end.

Definition consistent (s : TaskStatus) (i : IssueState) : bool :=
  match stateFor s, i with
  | open, open | closed, closed => true
  | _, _ => false
  end.

(** Modelled from the spec: the reconciler's decision for one task and its
    mapped issue.  One-way: the task drives the issue.  Two-way: the side that
    changed more recently wins. *)
Definition decideReconcile (cfg : Config) (r : Repo) (t : TaskRecord)
    (mapped : option IssueRecord) : option Write :=
  match mapped with
  | None => None
  | Some i =>
      if consistent (status t) (state i) then None
      else
        match mode cfg with
        | one_way => Some (SetIssueState (number i) (stateFor (status t)))
        | two_way =>
            if fileModified r (sourceFile t) <? updatedAt i
            then Some (RewriteCheckbox (specName t) (taskId t) (statusFor (state i)))
            else Some (SetIssueState (number i) (stateFor (status t)))
        end
  end.

(** Modelled from the spec: a decision carried out, with the write it costs;
    the synchronizer and the reconciler on one task. *)
Definition perform (cfg : Config) (st : Tracker * Repo) (w : option Write)
    : (Tracker * Repo) * list Write :=
  match w with
  | Some wr => (applyWrite cfg st wr, [wr])
  | None => (st, [])
  end.

Definition syncOne (cfg : Config) (st : Tracker * Repo) (t : TaskRecord)
    : (Tracker * Repo) * list Write :=
  perform cfg st (decideSync cfg (searchByKey (fst st) (syncKey cfg t)) t).

Definition reconcileOne (cfg : Config) (st : Tracker * Repo) (t : TaskRecord)
    : (Tracker * Repo) * list Write :=
  perform cfg st (decideReconcile cfg (snd st) t (mappedIssue (fst st) (syncKey cfg t))).

(** Modelled from the spec: one pass over the tasks, in document order,
    collecting the writes. *)
Fixpoint pass (one : (Tracker * Repo) -> TaskRecord -> (Tracker * Repo) * list Write)
    (st : Tracker * Repo) (ts : list TaskRecord) : (Tracker * Repo) * list Write :=
  match ts with
  | [] => (st, [])
  | t :: more =>
      let (st1, ws1) := one st t in
      let (st2, ws2) := pass one st1 more in
      (st2, (ws1 ++ ws2)%list)
  end.

(** Modelled from the spec: one run: the synchronizer over the scanned tasks,
    then the reconciler over the same tasks (section 2, control flow). *)
Definition syncRun (cfg : Config) (st : Tracker * Repo) : (Tracker * Repo) * list Write :=
  let ts := tasks (snd st) in
  let (st1, ws1) := pass (syncOne cfg) st ts in
  let (st2, ws2) := pass (reconcileOne cfg) st1 ts in
  (st2, (ws1 ++ ws2)%list).

(** Modelled from the spec: a conflict is a key with more than one issue; the
    synchronizer logs it and leaves the other issues alone. *)
Definition conflict (tr : Tracker) (k : SyncKey) : bool :=
  1 <? List.length (searchByKey tr k).

(** A task whose issue exists and carries the desired title and body; a task
    whose issue, if it has one, is in the state its status asks for. *)
Definition settled (tr : Tracker) (cfg : Config) (t : TaskRecord) : Prop :=
  exists i, mappedIssue tr (syncKey cfg t) = Some i /\ upToDate i t = true.

Definition agrees (tr : Tracker) (cfg : Config) (t : TaskRecord) : Prop :=
  match mappedIssue tr (syncKey cfg t) with
  | Some i => consistent (status t) (state i) = true
  | None => True
  end.

(** *** Concurrent and interrupted runs (section 5) *)

(** Modelled from the spec: a job is the work on one task: started, it searches
    the tracker, then writes what it decided from the search. *)
Inductive Phase : Type :=
| Searching
| Deciding (found : list IssueRecord).

Record Job : Type := {
  jobConfig : Config;
  jobTask : TaskRecord;
  jobPhase : Phase
}.

Definition jobKey (j : Job) : SyncKey := syncKey (jobConfig j) (jobTask j).

Record Engine : Type := {
  remote : Tracker;
  inflight : list Job
}.

(** Modelled from the spec: the steps of any number of runs at once.  A job
    starts only while no job of the same key is in flight (single-flight per
    key); jobs of different keys interleave at every tracker call; a job can
    be lost at any point (a crash, a timeout); the reconciler writes states. *)
Inductive step : Engine -> Engine -> Prop :=
| step_start (e : Engine) (cfg : Config) (t : TaskRecord) :
    ~ In (syncKey cfg t) (map jobKey (inflight e)) ->
    step e {| remote := remote e;
              inflight := {| jobConfig := cfg; jobTask := t; jobPhase := Searching |}
                            :: inflight e |}
| step_search (e : Engine) (before after : list Job) (j : Job) :
    inflight e = (before ++ j :: after)%list ->
    jobPhase j = Searching ->
    step e {| remote := remote e;
              inflight :=
                (before
                 ++ {| jobConfig := jobConfig j; jobTask := jobTask j;
                       jobPhase := Deciding (searchByKey (remote e) (jobKey j)) |}
                 :: after)%list |}
| step_write (e : Engine) (before after : list Job) (j : Job)
    (found : list IssueRecord) (r : Repo) :
    inflight e = (before ++ j :: after)%list ->
    jobPhase j = Deciding found ->
    step e {| remote :=
                fst (fst (perform (jobConfig j) (remote e, r)
                            (decideSync (jobConfig j) found (jobTask j))));
              inflight := (before ++ after)%list |}
| step_reconcile (e : Engine) (cfg : Config) (r : Repo) (t : TaskRecord) :
    step e {| remote := fst (fst (reconcileOne cfg (remote e, r) t));
              inflight := inflight e |}
| step_lost (e : Engine) (before after : list Job) (j : Job) :
    inflight e = (before ++ j :: after)%list ->
    step e {| remote := remote e; inflight := (before ++ after)%list |}.

Inductive steps (e1 : Engine) : Engine -> Prop :=
| steps_refl : steps e1 e1
| steps_step (e2 e3 : Engine) : steps e1 e2 -> step e2 e3 -> steps e1 e3.

End Engine.

(** *** Vocabulary of the proofs *)

(** A change of the issues numbered [n], all others left as they are. *)
Definition touch (n : nat) (g : IssueRecord -> IssueRecord) (i : IssueRecord)
    : IssueRecord :=
  if number i =? n then g i else i.

(** What the work on one key [k] can do to the tracker: nothing (but let time
    pass), create the first issue of [k], or revise the canonical issue of [k]
    in place, its number and labels kept. *)
Inductive effect (k : SyncKey) : Tracker -> Tracker -> Prop :=
| effect_none (tr : Tracker) (c : nat) :
    effect k tr {| issues := issues tr; clock := c |}
| effect_create (tr : Tracker) (new : IssueRecord) (c : nat) :
    searchByKey tr k = [] ->
    issueKey new = Some k ->
    number new = freshNumber tr ->
    effect k tr {| issues := (issues tr ++ [new])%list; clock := c |}
| effect_touch (tr : Tracker) (i0 : IssueRecord) (g : IssueRecord -> IssueRecord)
    (c : nat) :
    mappedIssue tr k = Some i0 ->
    (forall i, number (g i) = number i) ->
    labels (g i0) = labels i0 ->
    effect k tr {| issues := map (touch (number i0) g) (issues tr); clock := c |}.

(** Any number of such effects, on keys that satisfy [P]. *)
Inductive effects (P : SyncKey -> Prop) (tr1 : Tracker) : Tracker -> Prop :=
| effects_refl : effects P tr1 tr1
| effects_step (tr2 tr3 : Tracker) (k : SyncKey) :
    effects P tr1 tr2 -> P k -> effect k tr2 tr3 -> effects P tr1 tr3.

(** Two issues with the same number, title and body; two trackers whose
    mapping sends every key to such issues. *)
Definition sameText (i j : IssueRecord) : Prop :=
  number i = number j /\ issueTitle i = issueTitle j /\ body i = body j.

Definition keepsText (tr tr' : Tracker) : Prop :=
  forall k,
    match mappedIssue tr k, mappedIssue tr' k with
    | Some x, Some y => sameText x y
    | None, None => True
    | _, _ => False
    end.

(** Two task records that differ at most in their status. *)
Definition sameTask (t t' : TaskRecord) : Prop :=
  specName t = specName t' /\ taskId t = taskId t' /\ title t = title t' /\
  description t = description t' /\ requirementRefs t = requirementRefs t' /\
  sourceFile t = sourceFile t'.

(** Two issues with the same number and the same labels. *)
Definition sameTag (i j : IssueRecord) : Prop :=
  number i = number j /\ labels i = labels j.

(** What holds of the jobs in flight: no two have the same key, and what a job
    found is still what the tracker holds for its key, by number and labels. *)
Definition tracks (e : Engine) : Prop :=
  NoDup (map jobKey (inflight e)) /\
  forall j found,
    In j (inflight e) ->
    jobPhase j = Deciding found ->
    Forall2 sameTag found (searchByKey (remote e) (jobKey j)).

(** How many issues are tagged with a key. *)
Definition issuesOf (tr : Tracker) (k : SyncKey) : nat :=
  List.length (searchByKey tr k).

(** Issue numbers identify issues. *)
Definition numbered (tr : Tracker) : Prop := NoDup (map number (issues tr)).

End TaskSync.

(* ================================================================== *)
(** ** The scenarios of section 8 of the specification *)

Module SyncScenarios.
Import TaskSync.
Local Open Scope nat_scope.

(** One malformed line (no id) among nine well-formed ones. *)
Definition tenLines : list string :=
  [ "- [x] 1 Set up project structure";
    "  - [x] 1.1 Initialise the repository";
    "  - [ ] 1.2* Write contributor guide";
    "- [ ] 2 Shared utilities";
    "  - [ ] 2.1 Create download utility";
    "  - [ ] Create checksum utility";
    "  - [ ] 2.3 Create cache utility";
    "- [ ] 3 Actions";
    "  - [ ] 3.1 Setup action";
    "  - [ ] 3.2 Review action" ].

Definition noMarker : string -> bool := fun _ => false.

Definition asIs : string -> string := fun s => s.

Definition issueBody (spec id descr : string) (refs : list string) : string :=
  "Spec: " ++ spec ++ ", task: " ++ id ++ ". " ++ descr
  ++ " Requirements: " ++ String.concat ", " refs.

(** Task 2.1 of the spec kiro-workers, in a given status. *)
Definition task21 (s : TaskStatus) : TaskRecord :=
  {| specName := "kiro-workers"; taskId := "2.1"; title := "Create download utility";
     description := EmptyString; status := s; requirementRefs := ["1.1"; "9.4"];
     isOptional := false; parentTaskId := Some "2";
     sourceFile := ".kiro/specs/kiro-workers/tasks.md"; sourceLineRange := (5, 5) |}.

Definition repoWith (s : TaskStatus) : Repo :=
  {| tasks := [task21 s]; fileModified := fun _ => 0 |}.

Definition emptyTracker : Tracker := {| issues := []; clock := 1 |}.

Definition oneWay : Config :=
  {| repoIdentifier := "major0/kiro-workers"; crossRepo := false; mode := one_way |}.

Definition crossFrom (repo : string) : Config :=
  {| repoIdentifier := repo; crossRepo := true; mode := one_way |}.

(** The tracker after the first sync of the task, not yet started. *)
Definition afterFirstSync : Tracker :=
  fst (fst (syncRun asIs issueBody oneWay (emptyTracker, repoWith not_started))).

End SyncScenarios.
(* ================================================================== *)
(** ** Facts about [includes] *)

Module JsStringFacts.
Import JsString.

Lemma prefix_split (p s : string) :
  prefix p s = true <-> exists rest, s = p ++ rest.
Proof.
  revert s; induction p as [|c p IH]; intros s.
  - split; [intros _; now exists s | intros _; now destruct s].
  - destruct s as [|c' s]; simpl.
    + split; [discriminate | intros [rest H]; discriminate].
    + destruct (Ascii.ascii_dec c c') as [->|Hne].
      * rewrite IH. split; intros [rest H]; exists rest.
        -- now rewrite H.
        -- now injection H.
      * split; [discriminate | intros [rest H]; injection H; congruence].
Qed.

Lemma includes_unfold (s sub : string) :
  includes s sub =
  if prefix sub s then true
  else match s with
       | EmptyString => false
       | String _ s' => includes s' sub
       end.
Proof. now destruct s. Qed.

(** [includes] is substring containment. *)
Lemma includes_spec (s sub : string) :
  includes s sub = true <-> exists before after, s = before ++ sub ++ after.
Proof.
  induction s as [|c s IH]; rewrite includes_unfold.
  - destruct (prefix sub "") eqn:Hp.
    + split; [intros _ | reflexivity].
      apply prefix_split in Hp as [rest Hr]. now exists "", rest.
    + split; [discriminate|].
      intros [[|c b] [a H]]; simpl in H; [|discriminate].
      assert (prefix sub "" = true) by (apply prefix_split; now exists a).
      congruence.
  - destruct (prefix sub (String c s)) eqn:Hp.
    + split; [intros _ | reflexivity].
      apply prefix_split in Hp as [rest Hr]. now exists "", rest.
    + rewrite IH. split.
      * intros (b & a & ->). now exists (String c b), a.
      * intros ([|c' b] & a & H); simpl in H.
        -- assert (prefix sub (String c s) = true) by (apply prefix_split; now exists a).
           congruence.
        -- injection H as _ ->. now exists b, a.
Qed.

End JsStringFacts.

(* ================================================================== *)
(** ** The retry loop of [downloadFile] *)

Module DownloadFacts.
Import JsString JsStringFacts Download.

Lemma requests_app (t1 t2 : list event) :
  requests (t1 ++ t2) = (requests t1 + requests t2)%nat.
Proof. unfold requests. now rewrite filter_app, length_app. Qed.

Lemma delays_app (t1 t2 : list event) :
  delays (t1 ++ t2) = (delays t1 ++ delays t2)%list.
Proof.
  induction t1 as [|e t1 IH]; [reflexivity|].
  destruct e; simpl; now rewrite IH.
Qed.

(** The file-system part of an attempt neither sleeps nor sends a request. *)
Lemma receive_quiet (destPath : string) (io : attempt_io) :
  requests (fst (receive destPath io)) = 0%nat /\
  delays (fst (receive destPath io)) = [].
Proof.
  unfold receive.
  destruct (reply io) as [m|res]; [now split|].
  destruct (statusCode res =? 200); [|now split].
  destruct (destDirExists io), (mkdirThrows io), (pipelineThrows io); now split.
Qed.

Lemma backoff_quiet (maxRetries retryDelayMs attempt : Z) :
  requests (backoff maxRetries retryDelayMs attempt) = 0%nat.
Proof. unfold backoff. now destruct (0 <? attempt). Qed.

Lemma backoff_delays (maxRetries retryDelayMs attempt : Z) :
  delays (backoff maxRetries retryDelayMs attempt) =
  if 0 <? attempt then [backoff_delay retryDelayMs attempt] else [].
Proof. unfold backoff. now destruct (0 <? attempt). Qed.

(** One attempt sends exactly one request, after its back-off. *)
Lemma try_block_trace (url destPath : string) (maxRetries retryDelayMs attempt : Z)
    (io : attempt_io) :
  let r := try_block url destPath maxRetries retryDelayMs attempt io in
  requests (fst r) = 1%nat /\
  delays (fst r) = (if 0 <? attempt then [backoff_delay retryDelayMs attempt] else []) /\
  snd r = snd (receive destPath io).
Proof.
  unfold try_block.
  destruct (receive_quiet destPath io) as [Hq Hd].
  destruct (receive destPath io) as [evs r]; cbn [fst snd] in *.
  rewrite !requests_app, !delays_app, backoff_quiet, backoff_delays, Hq, Hd.
  cbn. rewrite app_nil_r. auto.
Qed.

Lemma catch_block_trace (maxRetries attempt : Z) (message : string) :
  requests (fst (catch_block maxRetries attempt message)) = 0%nat /\
  delays (fst (catch_block maxRetries attempt message)) = [].
Proof.
  unfold catch_block.
  destruct (nonRetryable message); [now split|].
  destruct (maxRetries <=? attempt); now split.
Qed.

Lemma attempt_error_caught (destPath : string) (io : attempt_io) (m : string) :
  attempt_error destPath io = Some m <-> snd (receive destPath io) = Caught m.
Proof.
  unfold attempt_error.
  destruct (snd (receive destPath io)); split; congruence.
Qed.

Section Loop.
Variable w : world.
Variables url destPath : string.
Variables maxRetries retryDelayMs : Z.

Let loop (fuel : nat) (attempt : Z) :=
  for_loop fuel w url destPath maxRetries retryDelayMs attempt.

Lemma for_loop_unfold (fuel : nat) (attempt : Z) :
  loop (S fuel) attempt =
  if attempt <=? maxRetries then
    let (evs, r) :=
      try_block url destPath maxRetries retryDelayMs attempt (w (Z.to_nat attempt)) in
    match r with
    | Completed => Some (evs, Returns)
    | Caught m =>
        let (wevs, thrown) := catch_block maxRetries attempt m in
        match thrown with
        | Some o => Some ((evs ++ wevs)%list, o)
        | None =>
            match loop fuel (attempt + 1) with
            | Some (rest, o) => Some ((evs ++ wevs ++ rest)%list, o)
            | None => None
            end
        end
    end
  else Some ([], ThrowsUnknownReason).
Proof. reflexivity. Qed.

(** The loop ends within [maxRetries + 1 - attempt] iterations. *)
Lemma for_loop_total (fuel : nat) (attempt : Z) :
  (Z.to_nat (maxRetries + 1 - attempt) <= fuel)%nat ->
  exists tr o, loop fuel attempt = Some (tr, o).
Proof.
  revert attempt; induction fuel as [|fuel IH]; intros attempt Hfuel.
  - unfold loop; simpl.
    destruct (Z.leb_spec attempt maxRetries); [lia | eauto].
  - rewrite for_loop_unfold.
    destruct (Z.leb_spec attempt maxRetries); [|eauto].
    destruct (try_block _ _ _ _ _ _) as [evs [|m]]; [eauto|].
    destruct (catch_block _ _ _) as [wevs [o|]]; [eauto|].
    destruct (IH (attempt + 1)) as (rest & o & ->); [lia | eauto].
Qed.

(** While attempts fail retryably and retries are left, the loop goes on: [n]
    attempts from [a] on cost [n] requests and the scheduled delays. *)
Lemma for_loop_retries (n : nat) :
  forall a : nat,
    Z.of_nat a + Z.of_nat n <= maxRetries ->
    (forall j, (a <= j < a + n)%nat -> fails_retryably w destPath j) ->
    exists seg,
      requests seg = n /\
      delays seg = retry_delays retryDelayMs a n /\
      forall fuel,
        loop (n + fuel) (Z.of_nat a) =
        match loop fuel (Z.of_nat a + Z.of_nat n) with
        | Some (rest, o) => Some ((seg ++ rest)%list, o)
        | None => None
        end.
Proof.
  induction n as [|n IH]; intros a Hle Hfail.
  - exists []. repeat split. intros fuel. simpl.
    replace (Z.of_nat a + 0) with (Z.of_nat a) by lia.
    now destruct (loop fuel (Z.of_nat a)) as [[rest o]|].
  - destruct (Hfail a) as (m & Hm & Hretry); [lia|].
    destruct (IH (S a)) as (seg & Hreq & Hdel & Hloop); [lia | intros; apply Hfail; lia |].
    pose proof (try_block_trace url destPath maxRetries retryDelayMs (Z.of_nat a) (w a))
      as (Htr & Htd & Hts).
    pose proof (catch_block_trace maxRetries (Z.of_nat a) m) as (Hcr & Hcd).
    apply attempt_error_caught in Hm.
    destruct (try_block url destPath maxRetries retryDelayMs (Z.of_nat a) (w a))
      as [evs r] eqn:Htry.
    simpl in Htr, Htd, Hts. rewrite Hm in Hts. subst r.
    assert (Hcatch : snd (catch_block maxRetries (Z.of_nat a) m) = None).
    { unfold catch_block. rewrite Hretry.
      destruct (Z.leb_spec maxRetries (Z.of_nat a)); [lia | reflexivity]. }
    destruct (catch_block maxRetries (Z.of_nat a) m) as [wevs thrown] eqn:Hc.
    simpl in Hcr, Hcd, Hcatch. subst thrown.
    exists (evs ++ wevs ++ seg)%list. repeat split.
    + rewrite !requests_app. lia.
    + rewrite !delays_app, Htd, Hcd, Hdel. reflexivity.
    + intros fuel. change (S n + fuel)%nat with (S (n + fuel)).
      rewrite for_loop_unfold.
      destruct (Z.leb_spec (Z.of_nat a) maxRetries); [|lia].
      rewrite Nat2Z.id, Htry, Hc.
      replace (Z.of_nat a + 1) with (Z.of_nat (S a)) by lia.
      rewrite Hloop.
      replace (Z.of_nat (S a) + Z.of_nat n) with (Z.of_nat a + Z.of_nat (S n)) by lia.
      destruct (loop fuel _) as [[rest o]|]; [|reflexivity].
      now rewrite <- !app_assoc.
Qed.

(** Inside the loop nothing leads to the throw behind it. *)
Lemma for_loop_in_loop (fuel : nat) :
  forall attempt tr o,
    attempt <= maxRetries ->
    loop fuel attempt = Some (tr, o) ->
    o <> ThrowsUnknownReason /\ (1 <= requests tr)%nat.
Proof.
  induction fuel as [|fuel IH]; intros attempt tr o Hle Hrun.
  - unfold loop in Hrun; simpl in Hrun.
    destruct (Z.leb_spec attempt maxRetries); [discriminate | lia].
  - rewrite for_loop_unfold in Hrun.
    destruct (Z.leb_spec attempt maxRetries); [|lia].
    pose proof (try_block_trace url destPath maxRetries retryDelayMs attempt
                  (w (Z.to_nat attempt))) as (Htr & _ & _).
    destruct (try_block _ _ _ _ _ _) as [evs [|m]]; simpl in Htr.
    + injection Hrun as <- <-. split; [discriminate | lia].
    + unfold catch_block in Hrun.
      destruct (nonRetryable m).
      { injection Hrun as <- <-. rewrite requests_app. split; [discriminate | lia]. }
      destruct (Z.leb_spec maxRetries attempt).
      { injection Hrun as <- <-. rewrite requests_app. split; [discriminate | lia]. }
      destruct (loop fuel (attempt + 1)) as [[rest o']|] eqn:Hrest; [|discriminate].
      injection Hrun as <- <-.
      rewrite requests_app. split; [|lia].
      eapply IH; [|exact Hrest]. lia.
Qed.

(** An attempt that is made starts with its back-off and its request. *)
Lemma for_loop_starts (fuel : nat) (attempt : Z) (tr : list event) (o : outcome) :
  attempt <= maxRetries ->
  loop fuel attempt = Some (tr, o) ->
  exists rest,
    tr = (backoff maxRetries retryDelayMs attempt
            ++ [core_info ("Downloading from " ++ url ++ "..."); client_get url]
            ++ rest)%list.
Proof.
  intros Hle Hrun. destruct fuel as [|fuel].
  - unfold loop in Hrun; simpl in Hrun.
    destruct (Z.leb_spec attempt maxRetries); [discriminate | lia].
  - rewrite for_loop_unfold in Hrun.
    destruct (Z.leb_spec attempt maxRetries); [|lia].
    unfold try_block in Hrun.
    destruct (receive destPath (w (Z.to_nat attempt))) as [evs [|m]].
    + injection Hrun as <- <-. now exists evs.
    + destruct (catch_block maxRetries attempt m) as [wevs [o'|]].
      * injection Hrun as <- <-. exists (evs ++ wevs)%list.
        now rewrite <- !app_assoc.
      * destruct (loop fuel (attempt + 1)) as [[rest o']|]; [|discriminate].
        injection Hrun as <- <-. exists (evs ++ wevs ++ rest)%list.
        now rewrite <- !app_assoc.
Qed.

End Loop.

(** The response's headers are never read. *)
Lemma receive_ignores_headers (destPath : string) (io io' : attempt_io) :
  agree_up_to_headers io io' -> receive destPath io = receive destPath io'.
Proof.
  unfold agree_up_to_headers, receive.
  intros (Hr & -> & -> & ->).
  destruct (reply io) as [m|r], (reply io') as [m'|r']; try contradiction.
  - now subst.
  - destruct Hr as [-> ->]. reflexivity.
Qed.

Lemma for_loop_ignores_headers (w w' : world) (url destPath : string)
    (maxRetries retryDelayMs : Z) (fuel : nat) :
  (forall j, agree_up_to_headers (w j) (w' j)) ->
  forall attempt,
    for_loop fuel w' url destPath maxRetries retryDelayMs attempt =
    for_loop fuel w url destPath maxRetries retryDelayMs attempt.
Proof.
  intros Hagree. induction fuel as [|fuel IH]; intros attempt; [reflexivity|].
  cbn [for_loop]. unfold try_block.
  rewrite <- (receive_ignores_headers destPath _ _ (Hagree (Z.to_nat attempt))).
  now rewrite IH.
Qed.

(** HTTP 429 is caught as an error that the [catch] block lets through. *)
Lemma rate_limit_caught (destPath : string) (io : attempt_io) (res : response) :
  reply io = Resolved res ->
  statusCode res = 429 ->
  receive destPath io = ([], Caught ("HTTP 429: " ++ statusMessage res)) /\
  nonRetryable ("HTTP 429: " ++ statusMessage res) = false.
Proof.
  intros Hr Hs. split.
  - unfold receive. now rewrite Hr, Hs.
  - unfold nonRetryable.
    assert (H : includes ("HTTP 429: " ++ statusMessage res) "429" = true).
    { apply includes_spec. now exists "HTTP ", (": " ++ statusMessage res). }
    rewrite H. apply andb_false_r.
Qed.

Lemma retry_delays_schedule (retryDelayMs : Z) (n : nat) :
  retry_delays retryDelayMs 0 (S n) =
  map (fun k => retryDelayMs * 2 ^ (Z.of_nat k - 1)) (seq 1 n).
Proof.
  assert (Hpos : forall a, (1 <= a)%nat ->
            retry_delays retryDelayMs a n =
            map (fun k => retryDelayMs * 2 ^ (Z.of_nat k - 1)) (seq a n)).
  { unfold retry_delays.
    induction n as [|n IH]; intros a Ha; [reflexivity|].
    cbn [seq flat_map map]. destruct (Z.ltb_spec 0 (Z.of_nat a)); [|lia].
    cbn [app]. f_equal. apply IH. lia. }
  rewrite <- Hpos by lia. reflexivity.
Qed.

End DownloadFacts.

Module DownloadSpec.
Import JsString JsStringFacts Download DownloadFacts DownloadScenarios.

Lemma retry_delays_snoc (d : Z) (k : nat) :
  (retry_delays d 0 k
     ++ (if 0 <? Z.of_nat k then [backoff_delay d (Z.of_nat k)] else []))%list =
  map (fun j => d * 2 ^ (Z.of_nat j - 1)) (seq 1 k).
Proof.
  rewrite <- retry_delays_schedule. unfold retry_delays.
  rewrite seq_S, flat_map_app. cbn [flat_map Nat.add]. now rewrite app_nil_r.
Qed.

Lemma fuel_split (m : Z) (k : nat) :
  Z.of_nat k <= m -> exists f, Z.to_nat (m + 1) = (k + S f)%nat.
Proof. intros H. exists (Z.to_nat m - k)%nat. lia. Qed.



(** The schedule of the function's documentation: attempt 2 after 1000 ms,
    attempt 3 after 2000 ms, attempt 4 after 4000 ms. *)
Example documented_schedule :
  slept_and_ended (downloadFile_defaults (alwaysRejects "ETIMEDOUT") url destPath) =
    Some ([1000; 2000; 4000],
          ThrowsRetriesExhausted "Failed to download after 4 attempts: ETIMEDOUT").
Proof. reflexivity. Qed.


(** C9: an attempt whose error message contains "HTTP 4" and not "429" ends the
    call at once: the caught error itself is thrown, and no request or sleep
    follows.  When it is the first attempt, exactly one request was made. *)
Theorem downloadFile_client_error_not_retried
    (w : world) (url destPath : string) (maxRetries retryDelayMs : Z)
    (k : nat) (msg : string) :
  Z.of_nat k <= maxRetries ->
  (forall j, (j < k)%nat -> fails_retryably w destPath j) ->
  attempt_error destPath (w k) = Some msg ->
  includes msg "HTTP 4" = true ->
  includes msg "429" = false ->
  exists tr,
    downloadFile w url destPath maxRetries retryDelayMs = Some (tr, ThrowsLastError msg) /\
    requests tr = S k /\
    delays tr = map (fun j => retryDelayMs * 2 ^ (Z.of_nat j - 1)) (seq 1 k).
Proof.
  intros Hk Hfail Hmsg H4 H429.
  destruct (for_loop_retries w url destPath maxRetries retryDelayMs k 0%nat)
    as (seg & Hreq & Hdel & Hloop); [lia | intros; apply Hfail; lia |].
  pose proof (try_block_trace url destPath maxRetries retryDelayMs (Z.of_nat k) (w k))
    as (Htr & Htd & Hts).
  pose proof (catch_block_trace maxRetries (Z.of_nat k) msg) as (Hcr & Hcd).
  destruct (fuel_split maxRetries k Hk) as [f Hf].
  unfold downloadFile. rewrite Hf.
  change 0 with (Z.of_nat 0). rewrite Hloop.
  replace (Z.of_nat 0 + Z.of_nat k) with (Z.of_nat k) by lia.
  cbn [for_loop].
  destruct (Z.leb_spec (Z.of_nat k) maxRetries); [|lia].
  rewrite Nat2Z.id.
  destruct (try_block url destPath maxRetries retryDelayMs (Z.of_nat k) (w k)) as [evs r].
  cbn [fst snd] in Htr, Htd, Hts.
  apply attempt_error_caught in Hmsg. rewrite Hmsg in Hts. subst r.
  unfold catch_block in *.
  assert (Hnr : nonRetryable msg = true) by (unfold nonRetryable; now rewrite H4, H429).
  rewrite Hnr in *. cbn [fst snd] in Hcr, Hcd.
  eexists. split; [reflexivity|]. split.
  - rewrite !requests_app, Hreq, Htr, Hcr. lia.
  - rewrite !delays_app, Hdel, Htd, Hcd, app_nil_r. apply retry_delays_snoc.
Qed.

Lemma downloadFile_client_error_not_retried_witness :
  exists tr,
    downloadFile (alwaysStatus 404 "Error 404") url destPath 5 1000 =
      Some (tr, ThrowsLastError "HTTP 404: Error 404") /\
    requests tr = 1%nat /\
    delays tr = map (fun j => 1000 * 2 ^ (Z.of_nat j - 1)) (seq 1 0).
Proof.
  apply (downloadFile_client_error_not_retried
           (alwaysStatus 404 "Error 404") url destPath 5 1000 0 "HTTP 404: Error 404").
  - lia.
  - intros j Hj. lia.
  - reflexivity.
  - reflexivity.
  - reflexivity.
Defined.

(** The decision reads the message, not the status: a 404 whose status text
    mentions 429 is retried, and a network error that mentions "HTTP 4" is not. *)
Example retry_decision_is_textual :
  slept_and_ended
    (downloadFile (alwaysStatus 404 "see ticket 429") url destPath 1 1000) =
    Some ([1000],
          ThrowsRetriesExhausted
            "Failed to download after 2 attempts: HTTP 404: see ticket 429") /\
  slept_and_ended
    (downloadFile (alwaysRejects "proxy said HTTP 407") url destPath 1 1000) =
    Some ([], ThrowsLastError "proxy said HTTP 407").
Proof. split; reflexivity. Qed.





(** C8: [getPlatform] returns exactly on the three platforms and two
    architectures of the types, hands back the very values it read, and
    otherwise reports the platform first, then the architecture. *)
Theorem getPlatform_supported (nodePlatform nodeArch : string) :
  (In nodePlatform supportedPlatforms /\ In nodeArch supportedArchitectures <->
   exists info, getPlatform nodePlatform nodeArch = Value info) /\
  (forall info,
     getPlatform nodePlatform nodeArch = Value info ->
     Platform_string (platform info) = nodePlatform /\
     Architecture_string (arch info) = nodeArch) /\
  (~ In nodePlatform supportedPlatforms ->
   getPlatform nodePlatform nodeArch = Error ("Unsupported platform: " ++ nodePlatform)) /\
  (In nodePlatform supportedPlatforms ->
   ~ In nodeArch supportedArchitectures ->
   getPlatform nodePlatform nodeArch = Error ("Unsupported architecture: " ++ nodeArch)).
Proof.
  unfold getPlatform, supportedPlatforms, supportedArchitectures.
  destruct (String.eqb_spec nodePlatform "linux") as [->|Hl];
    [|destruct (String.eqb_spec nodePlatform "darwin") as [->|Hd];
      [|destruct (String.eqb_spec nodePlatform "win32") as [->|Hw]]];
  (destruct (String.eqb_spec nodeArch "x64") as [->|Hx];
    [|destruct (String.eqb_spec nodeArch "arm64") as [->|Ha]]);
  cbn [In];
  (split; [split; [intros [Hp Hq] | intros [info Hv]]
          |split; [intros info Hv | split; [intros Hp | intros Hp Hq]]]);
  try discriminate Hv;
  try (injection Hv as <-);
  solve [ eauto | reflexivity | exfalso; intuition congruence | intuition congruence ].
Qed.

End DownloadSpec.

(* ================================================================== *)
(** ** More of the download utility: what every call does *)

Module DownloadMore.
Import JsString JsStringFacts Download DownloadFacts DownloadScenarios.

Lemma warnings_app (t1 t2 : list event) :
  warnings (t1 ++ t2) = (warnings t1 + warnings t2)%nat.
Proof. unfold warnings. now rewrite filter_app, length_app. Qed.

Lemma Forall_receive_pure (destPath : string) (io : attempt_io) :
  Forall (fun e => is_warning e = false /\ is_get e = false)
         (fst (receive destPath io)).
Proof.
  unfold receive.
  destruct (reply io) as [m|res]; [constructor|].
  destruct (statusCode res =? 200); [|constructor].
  destruct (destDirExists io), (mkdirThrows io), (pipelineThrows io);
    cbn; repeat constructor.
Qed.

Lemma receive_warnings (destPath : string) (io : attempt_io) :
  warnings (fst (receive destPath io)) = 0%nat.
Proof.
  unfold warnings.
  induction (Forall_receive_pure destPath io) as [|e l [Hw _] _ IH]; [reflexivity|].
  cbn [filter]. now rewrite Hw.
Qed.

Lemma try_block_warnings (url destPath : string) (maxRetries retryDelayMs attempt : Z)
    (io : attempt_io) :
  warnings (fst (try_block url destPath maxRetries retryDelayMs attempt io)) = 0%nat.
Proof.
  unfold try_block.
  pose proof (receive_warnings destPath io) as Hr.
  destruct (receive destPath io) as [evs r]. cbn [fst] in *.
  rewrite !warnings_app, Hr. unfold backoff.
  now destruct (0 <? attempt).
Qed.

(** A completed attempt ends with the write of the file and the log of it. *)
Lemma receive_completed (destPath : string) (io : attempt_io) :
  snd (receive destPath io) = Completed ->
  exists pre,
    fst (receive destPath io) =
    (pre ++ [fs_writeStream destPath;
             core_info ("Successfully downloaded to " ++ destPath)])%list.
Proof.
  unfold receive.
  destruct (reply io) as [m|res]; [discriminate|].
  destruct (statusCode res =? 200); [|discriminate].
  destruct (destDirExists io).
  - destruct (pipelineThrows io); [discriminate|]. now exists [].
  - destruct (mkdirThrows io); [discriminate|].
    destruct (pipelineThrows io); [discriminate|]. now exists [fs_mkdirSync destPath].
Qed.

Lemma retry_delays_cons (d : Z) (a n : nat) :
  retry_delays d a (S n) =
  ((if 0 <? Z.of_nat a then [backoff_delay d (Z.of_nat a)] else [])
     ++ retry_delays d (S a) n)%list.
Proof. reflexivity. Qed.

Section Run.
Variable w : world.
Variables url destPath : string.
Variables maxRetries retryDelayMs : Z.

Local Abbreviation loop := (for_loop_unfold w url destPath maxRetries retryDelayMs).

(** The loop from attempt [a] on: it makes [n + 1] attempts, of which the first
    [n] fail with errors that are retried and the last decides the outcome. *)
Lemma for_loop_decides (fuel : nat) :
  forall a : nat,
    Z.of_nat a <= maxRetries ->
    (Z.to_nat (maxRetries + 1) - a <= fuel)%nat ->
    exists n tr o,
      for_loop fuel w url destPath maxRetries retryDelayMs (Z.of_nat a) = Some (tr, o) /\
      requests tr = S n /\
      delays tr = retry_delays retryDelayMs a (S n) /\
      Z.of_nat (a + n) <= maxRetries /\
      (forall j, (a <= j < a + n)%nat -> fails_retryably w destPath j) /\
      decided_by w destPath maxRetries (a + n) o /\
      warnings tr = (match o with Returns => n | _ => S n end) /\
      (o = Returns ->
       exists pre,
         tr = (pre ++ [fs_writeStream destPath;
                       core_info ("Successfully downloaded to " ++ destPath)])%list).
Proof.
  induction fuel as [|fuel IH]; intros a Ha Hfuel; [lia|].
  rewrite loop. destruct (Z.leb_spec (Z.of_nat a) maxRetries); [|lia].
  rewrite Nat2Z.id.
  pose proof (try_block_trace url destPath maxRetries retryDelayMs (Z.of_nat a) (w a))
    as (Htr & Htd & Hts).
  pose proof (try_block_warnings url destPath maxRetries retryDelayMs (Z.of_nat a) (w a))
    as Htw.
  assert (Hend : snd (receive destPath (w a)) = Completed ->
                 exists pre,
                   fst (try_block url destPath maxRetries retryDelayMs (Z.of_nat a) (w a)) =
                   (pre ++ [fs_writeStream destPath;
                            core_info ("Successfully downloaded to " ++ destPath)])%list).
  { intros Hc. destruct (receive_completed destPath (w a) Hc) as [pre Hpre].
    unfold try_block. destruct (receive destPath (w a)) as [evs r]. cbn [fst] in *.
    rewrite Hpre. eexists. rewrite !app_assoc. reflexivity. }
  destruct (try_block url destPath maxRetries retryDelayMs (Z.of_nat a) (w a)) as [evs r].
  cbn [fst snd] in Htr, Htd, Hts, Htw, Hend.
  assert (Herr : attempt_error destPath (w a) =
                 match r with Completed => None | Caught m => Some m end)
    by (unfold attempt_error; now rewrite <- Hts).
  destruct r as [|msg].
  { exists 0%nat, evs, Returns. rewrite Nat.add_0_r, retry_delays_cons.
    cbn [retry_delays seq flat_map]. rewrite Htd, app_nil_r.
    split; [reflexivity|]. split; [assumption|]. split; [reflexivity|].
    split; [lia|]. split; [intros j Hj; lia|]. split; [exact Herr|].
    split; [assumption|]. intros _. now apply Hend. }
  unfold catch_block. set (wv := core_warning _).
  destruct (nonRetryable msg) eqn:Hnr.
  { exists 0%nat, (evs ++ [wv])%list, (ThrowsLastError msg). rewrite Nat.add_0_r, retry_delays_cons.
    cbn [retry_delays seq flat_map].
    rewrite requests_app, delays_app, warnings_app, Htr, Htd, Htw, !app_nil_r.
    split; [reflexivity|]. split; [reflexivity|]. split; [reflexivity|].
    split; [lia|]. split; [intros j Hj; lia|]. split; [now split|].
    split; [reflexivity|]. discriminate. }
  destruct (Z.leb_spec maxRetries (Z.of_nat a)).
  { eexists 0%nat, (evs ++ [wv])%list, (ThrowsRetriesExhausted _). rewrite Nat.add_0_r, retry_delays_cons.
    cbn [retry_delays seq flat_map].
    rewrite requests_app, delays_app, warnings_app, Htr, Htd, Htw, !app_nil_r.
    split; [reflexivity|]. split; [reflexivity|]. split; [reflexivity|].
    split; [lia|]. split; [intros j Hj; lia|].
    split; [split; [lia | now exists msg]|].
    split; [reflexivity|]. discriminate. }
  destruct (IH (S a)) as (n & tr & o & Hrun & Hreq & Hdel & Hle & Hfail & Hdec & Hwarn & Hlast);
    [lia | lia |].
  replace (Z.of_nat a + 1) with (Z.of_nat (S a)) by lia. rewrite Hrun.
  exists (S n), (evs ++ [wv] ++ tr)%list, o.
  replace (a + S n)%nat with (S a + n)%nat by lia.
  rewrite !requests_app, !delays_app, !warnings_app, Htr, Htd, Htw, Hreq, Hdel, Hwarn.
  split; [reflexivity|]. split; [reflexivity|].
  split; [now rewrite (retry_delays_cons retryDelayMs a (S n))|].
  split; [exact Hle|]. split.
  - intros j Hj. destruct (Nat.eq_dec j a) as [->|Hne].
    + now exists msg.
    + apply Hfail. lia.
  - split; [exact Hdec|]. split; [now destruct o|].
    intros Ho. destruct (Hlast Ho) as [pre ->]. eexists. rewrite !app_assoc. reflexivity.
Qed.

(** Whatever holds of the logs, sleeps and requests and of the events of every
    attempt's file handling holds of every event of a run. *)
Lemma for_loop_Forall (P : event -> Prop) (fuel : nat) :
  (forall m, P (core_info m)) ->
  (forall m, P (core_warning m)) ->
  (forall ms, P (sleep ms)) ->
  P (client_get url) ->
  (forall j, Z.of_nat j <= maxRetries -> Forall P (fst (receive destPath (w j)))) ->
  forall attempt tr o,
    0 <= attempt ->
    for_loop fuel w url destPath maxRetries retryDelayMs attempt = Some (tr, o) ->
    Forall P tr.
Proof.
  intros Hinfo Hwarn Hsleep Hget Hrecv.
  induction fuel as [|fuel IH]; intros attempt tr o Hpos Hrun.
  - cbn in Hrun. destruct (attempt <=? maxRetries); [discriminate|].
    injection Hrun as <- <-. constructor.
  - rewrite loop in Hrun.
    destruct (Z.leb_spec attempt maxRetries); [|injection Hrun as <- <-; constructor].
    assert (Hevs : Forall P (fst (try_block url destPath maxRetries retryDelayMs attempt
                                    (w (Z.to_nat attempt))))).
    { unfold try_block. specialize (Hrecv (Z.to_nat attempt)).
      destruct (receive destPath (w (Z.to_nat attempt))) as [evs r]. cbn [fst] in *.
      apply Forall_app. split.
      - unfold backoff. destruct (0 <? attempt); repeat constructor; auto.
      - apply Forall_app. split; [repeat constructor; auto|]. apply Hrecv. lia. }
    destruct (try_block url destPath maxRetries retryDelayMs attempt (w (Z.to_nat attempt)))
      as [evs [|msg]]; cbn [fst] in Hevs.
    + now injection Hrun as <- <-.
    + unfold catch_block in Hrun.
      destruct (nonRetryable msg).
      { injection Hrun as <- <-. apply Forall_app. split; [assumption | repeat constructor; auto]. }
      destruct (maxRetries <=? attempt).
      { injection Hrun as <- <-. apply Forall_app. split; [assumption | repeat constructor; auto]. }
      destruct (for_loop fuel w url destPath maxRetries retryDelayMs (attempt + 1))
        as [[rest o']|] eqn:Hrest; [|discriminate].
      injection Hrun as <- <-.
      apply Forall_app. split; [assumption|].
      constructor; [apply Hwarn|].
      apply (IH (attempt + 1) rest o'); [lia | exact Hrest].
Qed.

End Run.

Lemma schedule_sum (d : Z) (n : nat) :
  fold_right Z.add 0 (map (fun k => d * 2 ^ (Z.of_nat k - 1)) (seq 1 n)) =
  d * (2 ^ Z.of_nat n - 1).
Proof.
  induction n as [|n IH]; [cbn; lia|].
  rewrite seq_S, map_app, fold_right_app. cbn [map fold_right Nat.add].
  assert (Hshift : forall l z, fold_right Z.add z l = fold_right Z.add 0 l + z).
  { induction l as [|x l IHl]; intros z; cbn; [lia|]. rewrite IHl. lia. }
  rewrite Hshift, IH.
  replace (Z.of_nat (S n) - 1) with (Z.of_nat n) by lia.
  rewrite Nat2Z.inj_succ, Z.pow_succ_r by lia. lia.
Qed.

Lemma filter_nil_Forall {A : Type} (p : A -> bool) (l : list A) :
  Forall (fun x => p x = false) l -> filter p l = [].
Proof.
  induction 1 as [|x l Hx _ IH]; [reflexivity|]. cbn. now rewrite Hx.
Qed.

(** *** The text of an HTTP error *)

Lemma lacks_cons (c a : ascii) (s : string) :
  lacks c (String a s) = negb (Ascii.eqb a c) && lacks c s.
Proof. reflexivity. Qed.

Lemma uint_lacks_H (d : Decimal.uint) : lacks "H" (NilEmpty.string_of_uint d) = true.
Proof. induction d; cbn [NilEmpty.string_of_uint]; try reflexivity; now rewrite lacks_cons, IHd. Qed.

(** A number printed in decimal holds no letter. *)
Lemma show_lacks_H (n : Z) : lacks "H" (show n) = true.
Proof.
  unfold show, NilZero.string_of_int, NilZero.string_of_uint.
  destruct (Z.to_int n) as [d|d]; destruct d; try reflexivity;
    try apply uint_lacks_H; rewrite lacks_cons, uint_lacks_H; reflexivity.
Qed.

Lemma includes_cons_other (a h : ascii) (s p : string) :
  a <> h -> includes (String a s) (String h p) = includes s (String h p).
Proof.
  intros Hne. rewrite includes_unfold. cbn [prefix].
  destruct (ascii_dec h a) as [->|_]; [contradiction | reflexivity].
Qed.

Lemma includes_skip (s t p : string) :
  lacks "H" s = true -> includes (s ++ t) (String "H" p) = includes t (String "H" p).
Proof.
  induction s as [|a s IH]; intros H; [reflexivity|].
  rewrite lacks_cons in H. apply andb_true_iff in H as [Ha Hs].
  cbn [append]. rewrite includes_cons_other; [now apply IH|].
  intros ->. discriminate Ha.
Qed.

Lemma prefix_app (p s t : string) : prefix p s = true -> prefix p (s ++ t) = true.
Proof.
  intros H. apply prefix_split in H as [rest ->]. apply prefix_split.
  exists (rest ++ t). revert rest. induction p as [|c p IH]; intros rest; [reflexivity|].
  cbn [append]. now rewrite IH.
Qed.

(** Where "HTTP 4" can stand in the message of an HTTP error. *)
Lemma http_message_has_4 (c : Z) (sm : string) :
  includes ("HTTP " ++ show c ++ ": " ++ sm) "HTTP 4" =
  prefix "4" (show c ++ ": " ++ sm) || includes sm "HTTP 4".
Proof.
  set (line := show c ++ ": " ++ sm).
  assert (Hline : includes line "HTTP 4" = includes sm "HTTP 4").
  { unfold line. rewrite includes_skip by apply show_lacks_H.
    cbn [append]. rewrite !includes_cons_other by discriminate. reflexivity. }
  cbn [append]. rewrite includes_unfold.
  assert (Hp : prefix "HTTP 4" (String "H" (String "T" (String "T" (String "P" (String " " line)))))
               = prefix "4" line) by reflexivity.
  rewrite Hp. rewrite !includes_cons_other by discriminate. rewrite Hline.
  now destruct (prefix "4" line).
Qed.

Lemma http_message_has_429 (line : string) :
  includes ("HTTP " ++ line) "429" = includes line "429".
Proof. cbn [append]. now rewrite !includes_cons_other by discriminate. Qed.

Lemma nonRetryable_http (res : response) :
  nonRetryable ("HTTP " ++ statusLine res) =
  (prefix "4" (statusLine res) || includes (statusMessage res) "HTTP 4")
  && negb (includes (statusLine res) "429").
Proof.
  unfold nonRetryable. rewrite http_message_has_429.
  unfold statusLine. now rewrite http_message_has_4.
Qed.

Lemma attempt_error_http (destPath : string) (io : attempt_io) (res : response) :
  reply io = Resolved res ->
  statusCode res <> 200 ->
  attempt_error destPath io = Some ("HTTP " ++ statusLine res).
Proof.
  intros Hr Hs. unfold attempt_error, receive. rewrite Hr.
  destruct (Z.eqb_spec (statusCode res) 200); [contradiction | reflexivity].
Qed.

(** The three digits of a status in the 4xx range. *)
Lemma show_4xx (c : Z) :
  400 <= c <= 499 ->
  exists b d, show c = String "4" (String b (String d "")) /\
              (c <> 429 -> String b (String d "") <> "29").
Proof.
  intros Hc.
  assert (Hall : forallb (fun n : nat =>
                    match show (400 + Z.of_nat n) with
                    | String a (String b (String d EmptyString)) =>
                        Ascii.eqb a "4"
                        && ((400 + Z.of_nat n =? 429)
                            || negb (String.eqb (String b (String d "")) "29"))
                    | _ => false
                    end) (seq 0 100) = true) by (vm_compute; reflexivity).
  rewrite forallb_forall in Hall.
  specialize (Hall (Z.to_nat (c - 400))).
  replace (400 + Z.of_nat (Z.to_nat (c - 400))) with c in Hall by lia.
  assert (Hin : In (Z.to_nat (c - 400)) (seq 0 100)) by (apply in_seq; lia).
  specialize (Hall Hin).
  destruct (show c) as [|a [|b [|d [|]]]]; try discriminate.
  apply andb_true_iff in Hall as [Ha Hbd]. apply Ascii.eqb_eq in Ha as ->.
  exists b, d. split; [reflexivity|]. intros Hne.
  destruct (Z.eqb_spec c 429); [contradiction|]. cbn [orb] in Hbd.
  intros Heq. rewrite Heq in Hbd. discriminate Hbd.
Qed.

(** A three-digit status outside the 4xx range does not start with 4. *)
Lemma show_not_4xx (c : Z) :
  100 <= c <= 999 -> ~ (400 <= c <= 499) ->
  exists a rest, show c = String a rest /\ a <> "4"%char.
Proof.
  intros Hc Hout.
  assert (Hall : forallb (fun n : nat =>
                    match show (100 + Z.of_nat n) with
                    | String a _ =>
                        negb (Ascii.eqb a "4")
                        || ((400 <=? 100 + Z.of_nat n) && (100 + Z.of_nat n <=? 499))
                    | _ => false
                    end) (seq 0 900) = true) by (vm_compute; reflexivity).
  rewrite forallb_forall in Hall.
  specialize (Hall (Z.to_nat (c - 100))).
  replace (100 + Z.of_nat (Z.to_nat (c - 100))) with c in Hall by lia.
  assert (Hin : In (Z.to_nat (c - 100)) (seq 0 900)) by (apply in_seq; lia).
  specialize (Hall Hin).
  destruct (show c) as [|a rest]; [discriminate|].
  exists a, rest. split; [reflexivity|].
  apply orb_true_iff in Hall as [Ha|Hr].
  - intros ->. discriminate Ha.
  - apply andb_true_iff in Hr as [H1 H2]. lia.
Qed.

Lemma prefix_cons (x a : ascii) (p s : string) :
  prefix (String x p) (String a s) = Ascii.eqb x a && prefix p s.
Proof.
  cbn [prefix]. destruct (ascii_dec x a) as [->|Hne].
  - now rewrite Ascii.eqb_refl.
  - apply Ascii.eqb_neq in Hne. now rewrite Hne.
Qed.

Lemma includes_cons (a : ascii) (t sub : string) :
  includes (String a t) sub = prefix sub (String a t) || includes t sub.
Proof. rewrite includes_unfold. now destruct (prefix sub (String a t)). Qed.

(** "429" in the status line of a 4xx status other than 429 is in the status text. *)
Lemma status_line_429 (b d : ascii) (sm : string) :
  String b (String d "") <> "29" ->
  includes (String "4" (String b (String d "")) ++ ": " ++ sm) "429" = includes sm "429".
Proof.
  intros Hne. cbn [append].
  rewrite !includes_cons, !prefix_cons.
  repeat match goal with
         | |- context [Ascii.eqb ?x ?y] => destruct (Ascii.eqb_spec x y)
         end;
    subst; try discriminate; try reflexivity; now destruct Hne.
Qed.

(** *** Every call *)

Lemma downloadFile_negative (w : world) (url destPath : string) (maxRetries retryDelayMs : Z) :
  maxRetries < 0 ->
  downloadFile w url destPath maxRetries retryDelayMs = Some ([], ThrowsUnknownReason).
Proof.
  intros Hneg. unfold downloadFile.
  replace (Z.to_nat (maxRetries + 1)) with 0%nat by lia.
  cbn [for_loop]. destruct (Z.leb_spec 0 maxRetries); [lia | reflexivity].
Qed.

Lemma downloadFile_decides (w : world) (url destPath : string) (maxRetries retryDelayMs : Z) :
  0 <= maxRetries ->
  exists n tr o,
    downloadFile w url destPath maxRetries retryDelayMs = Some (tr, o) /\
    requests tr = S n /\
    delays tr = map (fun k => retryDelayMs * 2 ^ (Z.of_nat k - 1)) (seq 1 n) /\
    Z.of_nat n <= maxRetries /\
    (forall j, (j < n)%nat -> fails_retryably w destPath j) /\
    decided_by w destPath maxRetries n o /\
    warnings tr = (match o with Returns => n | _ => S n end) /\
    (o = Returns ->
     exists pre,
       tr = (pre ++ [fs_writeStream destPath;
                     core_info ("Successfully downloaded to " ++ destPath)])%list).
Proof.
  intros Hm.
  destruct (for_loop_decides w url destPath maxRetries retryDelayMs
              (Z.to_nat (maxRetries + 1)) 0%nat)
    as (n & tr & o & Hrun & Hreq & Hdel & Hle & Hfail & Hdec & Hwarn & Hlast); [lia | lia |].
  cbn [Nat.add] in Hle, Hfail, Hdec. rewrite retry_delays_schedule in Hdel.
  exists n, tr, o. split; [exact Hrun|].
  repeat (split; [assumption|]). split; [|split; [|split]]; try assumption.
  intros j Hj. apply Hfail. lia.
Qed.

(** An attempt that decides the outcome and yet fails with an error that is
    retried is the last one the loop allows. *)
Lemma decided_stops (w : world) (destPath : string) (maxRetries : Z) (k : nat) (o : outcome) :
  decided_by w destPath maxRetries k o ->
  fails_retryably w destPath k ->
  Z.of_nat k = maxRetries.
Proof.
  intros Hdec (m & Hm & Hnr). destruct o; cbn in Hdec.
  - congruence.
  - destruct Hdec as [Hm' Hnr']. congruence.
  - now destruct Hdec.
  - contradiction.
Qed.

Lemma completed_reply (destPath : string) (io : attempt_io) :
  attempt_error destPath io = None ->
  exists res, reply io = Resolved res /\ statusCode res = 200 /\ pipelineThrows io = None.
Proof.
  unfold attempt_error, receive.
  destruct (reply io) as [m|res]; [discriminate|].
  destruct (Z.eqb_spec (statusCode res) 200) as [Hs|]; [|discriminate].
  intros H. exists res. split; [reflexivity|]. split; [exact Hs|].
  destruct (destDirExists io).
  - now destruct (pipelineThrows io).
  - destruct (mkdirThrows io); [discriminate|]. now destruct (pipelineThrows io).
Qed.






(** X5: one warning is logged for every failed attempt and none else: a call
    that returns has warned once less than it has requested, a call that throws
    from the loop as often as it has requested. *)
Theorem downloadFile_warns_per_failure
    (w : world) (url destPath : string) (maxRetries retryDelayMs : Z) :
  exists tr o,
    downloadFile w url destPath maxRetries retryDelayMs = Some (tr, o) /\
    warnings tr = (match o with Returns => requests tr - 1 | _ => requests tr end)%nat.
Proof.
  destruct (Z.le_gt_cases 0 maxRetries) as [Hpos|Hneg].
  - destruct (downloadFile_decides w url destPath maxRetries retryDelayMs Hpos)
      as (n & tr & o & Hrun & Hreq & _ & _ & _ & _ & Hwarn & _).
    exists tr, o. split; [exact Hrun|]. rewrite Hwarn, Hreq.
    destruct o; lia.
  - exists [], ThrowsUnknownReason. split; [now apply downloadFile_negative | reflexivity].
Qed.

(** X6: a call returns only after an attempt that was answered with status 200
    and whose stream was written: the last request is that attempt's, and the
    last two events are the write of [destPath] and the log of the success. *)
Theorem downloadFile_returns_after_write
    (w : world) (url destPath : string) (maxRetries retryDelayMs : Z) (tr : list event) :
  downloadFile w url destPath maxRetries retryDelayMs = Some (tr, Returns) ->
  exists pre res,
    tr = (pre ++ [fs_writeStream destPath;
                  core_info ("Successfully downloaded to " ++ destPath)])%list /\
    reply (w (requests tr - 1)%nat) = Resolved res /\
    statusCode res = 200 /\
    pipelineThrows (w (requests tr - 1)%nat) = None.
Proof.
  intros Hrun.
  destruct (Z.le_gt_cases 0 maxRetries) as [Hpos|Hneg].
  - destruct (downloadFile_decides w url destPath maxRetries retryDelayMs Hpos)
      as (n & tr' & o & Hrun' & Hreq & _ & _ & _ & Hdec & _ & Hlast).
    rewrite Hrun in Hrun'. injection Hrun' as <- <-.
    destruct (Hlast eq_refl) as [pre Hpre].
    cbn in Hdec. destruct (completed_reply _ _ Hdec) as (res & Hr & Hs & Hp).
    exists pre, res. rewrite Hreq. replace (S n - 1)%nat with n by lia. auto.
  - rewrite downloadFile_negative in Hrun by exact Hneg. discriminate Hrun.
Qed.

Lemma downloadFile_returns_after_write_witness :
  exists pre res,
    [core_info "Downloading from https://example.com/file.bin..."; client_get url;
     fs_writeStream destPath; core_info "Successfully downloaded to /tmp/file.bin"] =
    (pre ++ [fs_writeStream destPath;
             core_info ("Successfully downloaded to " ++ destPath)])%list /\
    reply (alwaysStatus 200 "OK" 0%nat) = Resolved res /\
    statusCode res = 200 /\
    pipelineThrows (alwaysStatus 200 "OK" 0%nat) = None.
Proof.
  apply (downloadFile_returns_after_write (alwaysStatus 200 "OK") url destPath 3 1000
           [core_info "Downloading from https://example.com/file.bin..."; client_get url;
            fs_writeStream destPath; core_info "Successfully downloaded to /tmp/file.bin"]).
  reflexivity.
Defined.

(** X7: when no attempt the loop allows is answered with status 200, the call
    throws and has not touched the file system: no directory was made and no
    file was opened for writing. *)
Theorem downloadFile_writes_only_on_200
    (w : world) (url destPath : string) (maxRetries retryDelayMs : Z) :
  (forall j res, Z.of_nat j <= maxRetries ->
                 reply (w j) = Resolved res -> statusCode res <> 200) ->
  exists tr o,
    downloadFile w url destPath maxRetries retryDelayMs = Some (tr, o) /\
    o <> Returns /\
    filter is_fs tr = [].
Proof.
  intros Hno.
  destruct (Z.le_gt_cases 0 maxRetries) as [Hpos|Hneg].
  - destruct (downloadFile_decides w url destPath maxRetries retryDelayMs Hpos)
      as (n & tr & o & Hrun & _ & _ & Hle & _ & Hdec & _).
    exists tr, o. split; [exact Hrun|]. split.
    + intros ->. cbn in Hdec.
      destruct (completed_reply _ _ Hdec) as (res & Hr & Hs & _).
      exact (Hno n res Hle Hr Hs).
    + apply filter_nil_Forall.
      apply (for_loop_Forall w url destPath maxRetries retryDelayMs
               (fun e => is_fs e = false) (Z.to_nat (maxRetries + 1)))
        with (attempt := 0) (o := o);
        try reflexivity; try lia; try exact Hrun.
      intros j Hj. unfold receive.
      destruct (reply (w j)) as [m|res] eqn:Hr; [constructor|].
      destruct (Z.eqb_spec (statusCode res) 200) as [Hs|]; [|constructor].
      now destruct (Hno j res Hj Hr).
  - exists [], ThrowsUnknownReason.
    split; [now apply downloadFile_negative|]. split; [discriminate | reflexivity].
Qed.

Lemma downloadFile_writes_only_on_200_witness :
  exists tr o,
    downloadFile (alwaysStatus 503 "Service Unavailable") url destPath 2 1000 = Some (tr, o) /\
    o <> Returns /\
    filter is_fs tr = [].
Proof.
  apply (downloadFile_writes_only_on_200
           (alwaysStatus 503 "Service Unavailable") url destPath 2 1000).
  intros j res _ Hr. injection Hr as <-. discriminate.
Defined.

(** X8: the destination directory is made only when it is missing: when it
    exists at every attempt the loop allows, no [mkdirSync] is issued. *)
Theorem downloadFile_keeps_existing_directory
    (w : world) (url destPath : string) (maxRetries retryDelayMs : Z) :
  (forall j, Z.of_nat j <= maxRetries -> destDirExists (w j) = true) ->
  exists tr o,
    downloadFile w url destPath maxRetries retryDelayMs = Some (tr, o) /\
    filter is_mkdir tr = [].
Proof.
  intros Hdir.
  destruct (for_loop_total w url destPath maxRetries retryDelayMs
              (Z.to_nat (maxRetries + 1)) 0) as (tr & o & Hrun); [lia|].
  exists tr, o. split; [exact Hrun|].
  apply filter_nil_Forall.
  apply (for_loop_Forall w url destPath maxRetries retryDelayMs
           (fun e => is_mkdir e = false) (Z.to_nat (maxRetries + 1))) with (attempt := 0) (o := o);
    try reflexivity; try lia; try exact Hrun.
  intros j Hj. unfold receive. rewrite (Hdir j Hj).
  destruct (reply (w j)) as [m|res]; [constructor|].
  destruct (statusCode res =? 200); [|constructor].
  destruct (pipelineThrows (w j)); repeat constructor.
Qed.

Lemma downloadFile_keeps_existing_directory_witness :
  exists tr o,
    downloadFile (alwaysStatus 200 "OK") url destPath 3 1000 = Some (tr, o) /\
    filter is_mkdir tr = [].
Proof.
  apply (downloadFile_keeps_existing_directory (alwaysStatus 200 "OK") url destPath 3 1000).
  intros j _. reflexivity.
Defined.

(** X9: which HTTP answers are not retried.  An answer with a status other than
    200 is caught as "HTTP <status>: <status text>"; it ends the call exactly
    when its status printed in decimal starts with 4, or the status text holds
    "HTTP 4", and "429" occurs nowhere in "<status>: <status text>". *)
Theorem http_error_retry_decision (destPath : string) (io : attempt_io) (res : response) :
  reply io = Resolved res ->
  statusCode res <> 200 ->
  attempt_error destPath io = Some ("HTTP " ++ statusLine res) /\
  nonRetryable ("HTTP " ++ statusLine res) =
    (prefix "4" (statusLine res) || includes (statusMessage res) "HTTP 4")
    && negb (includes (statusLine res) "429").
Proof.
  intros Hr Hs. split; [now apply attempt_error_http | apply nonRetryable_http].
Qed.

Lemma http_error_retry_decision_witness :
  attempt_error destPath (alwaysStatus 404 "Not Found" 0%nat) =
    Some ("HTTP " ++ statusLine {| statusCode := 404; statusMessage := "Not Found";
                                   headers := [] |}) /\
  nonRetryable ("HTTP " ++ statusLine {| statusCode := 404; statusMessage := "Not Found";
                                         headers := [] |}) =
    (prefix "4" (statusLine {| statusCode := 404; statusMessage := "Not Found";
                               headers := [] |})
     || includes "Not Found" "HTTP 4")
    && negb (includes (statusLine {| statusCode := 404; statusMessage := "Not Found";
                                     headers := [] |}) "429").
Proof.
  apply (http_error_retry_decision destPath (alwaysStatus 404 "Not Found" 0%nat)
           {| statusCode := 404; statusMessage := "Not Found"; headers := [] |}).
  - reflexivity.
  - discriminate.
Defined.



(** X11: every other three-digit status but 200 is retried, redirects and the
    other 2xx answers as much as server errors, unless its status text holds
    "HTTP 4". *)
Theorem other_status_is_retried
    (w : world) (destPath : string) (j : nat) (res : response) :
  reply (w j) = Resolved res ->
  100 <= statusCode res <= 999 ->
  ~ (400 <= statusCode res <= 499) ->
  statusCode res <> 200 ->
  includes (statusMessage res) "HTTP 4" = false ->
  fails_retryably w destPath j.
Proof.
  intros Hr Hc Hout Hs Hsm.
  exists ("HTTP " ++ statusLine res). split; [now apply attempt_error_http|].
  rewrite nonRetryable_http, Hsm.
  destruct (show_not_4xx (statusCode res) Hc Hout) as (a & rest & Hshow & Ha).
  unfold statusLine at 1. rewrite Hshow. cbn [append]. rewrite prefix_cons.
  assert (Hab : Ascii.eqb "4" a = false) by (apply Ascii.eqb_neq; congruence).
  now rewrite Hab.
Qed.

Lemma other_status_is_retried_witness :
  fails_retryably (alwaysStatus 302 "Found") destPath 0.
Proof.
  apply (other_status_is_retried (alwaysStatus 302 "Found") destPath 0
           {| statusCode := 302; statusMessage := "Found"; headers := [] |}).
  - reflexivity.
  - cbn. lia.
  - cbn. lia.
  - discriminate.
  - reflexivity.
Defined.

(** X12: more retries never lose a download: a call that returns with
    [maxRetries] returns with every larger bound, after the same number of
    requests and the same sleeps. *)
Theorem downloadFile_more_retries_keep_success
    (w : world) (url destPath : string) (maxRetries maxRetries' retryDelayMs : Z)
    (tr : list event) :
  downloadFile w url destPath maxRetries retryDelayMs = Some (tr, Returns) ->
  maxRetries <= maxRetries' ->
  exists tr',
    downloadFile w url destPath maxRetries' retryDelayMs = Some (tr', Returns) /\
    requests tr' = requests tr /\
    delays tr' = delays tr.
Proof.
  intros Hrun Hle.
  destruct (Z.le_gt_cases 0 maxRetries) as [Hpos|Hneg];
    [|rewrite downloadFile_negative in Hrun by exact Hneg; discriminate Hrun].
  destruct (downloadFile_decides w url destPath maxRetries retryDelayMs Hpos)
    as (n & tr0 & o & Hrun0 & Hreq & Hdel & Hn & Hfail & Hdec & _).
  rewrite Hrun in Hrun0. injection Hrun0 as <- <-. cbn in Hdec.
  destruct (downloadFile_decides w url destPath maxRetries' retryDelayMs)
    as (n' & tr' & o' & Hrun' & Hreq' & Hdel' & Hn' & Hfail' & Hdec' & _); [lia|].
  assert (Hsame : n' = n).
  { destruct (Nat.lt_trichotomy n' n) as [Hlt|[Heq|Hgt]]; [|exact Heq|].
    - pose proof (decided_stops _ _ _ _ _ Hdec' (Hfail n' Hlt)). lia.
    - destruct (Hfail' n Hgt) as (m & Hm & _). congruence. }
  subst n'.
  assert (Ho : o' = Returns).
  { destruct o'; cbn in Hdec'.
    - reflexivity.
    - destruct Hdec' as [Hm _]. congruence.
    - destruct Hdec' as (_ & m & Hm & _). congruence.
    - contradiction. }
  subst o'. exists tr'. split; [exact Hrun'|]. split; congruence.
Qed.

Lemma downloadFile_more_retries_keep_success_witness :
  exists tr',
    downloadFile (alwaysStatus 200 "OK") url destPath 5 1000 = Some (tr', Returns) /\
    requests tr' =
      requests [core_info "Downloading from https://example.com/file.bin..."; client_get url;
                fs_writeStream destPath;
                core_info "Successfully downloaded to /tmp/file.bin"] /\
    delays tr' =
      delays [core_info "Downloading from https://example.com/file.bin..."; client_get url;
              fs_writeStream destPath;
              core_info "Successfully downloaded to /tmp/file.bin"].
Proof.
  apply (downloadFile_more_retries_keep_success (alwaysStatus 200 "OK") url destPath 0 5 1000
           [core_info "Downloading from https://example.com/file.bin..."; client_get url;
            fs_writeStream destPath; core_info "Successfully downloaded to /tmp/file.bin"]).
  - reflexivity.
  - lia.
Defined.


End DownloadMore.

(* ================================================================== *)
(** ** The parser skips what it cannot read *)

Module ParserFacts.
Import TaskSync.
Local Open Scope nat_scope.

Lemma id_taken_app (id : string) (l1 l2 : list string) :
  id_taken id (l1 ++ l2) = id_taken id l1 || id_taken id l2.
Proof. unfold id_taken. apply existsb_app. Qed.

Section Parser.
Variable inProgressMarker : string -> bool.
Variables spec file : string.

Local Abbreviation parse_line := (TaskSync.parse_line inProgressMarker spec file).
Local Abbreviation parse_from := (TaskSync.parse_from inProgressMarker spec file).

Lemma parse_line_reads (st : ParserState) (earlier : list string) (n : nat) (line : string) :
  reads st earlier -> reads (parse_line st n line) (earlier ++ [line]).
Proof.
  intros Hreads id. rewrite id_taken_app.
  unfold TaskSync.parse_line, id_taken at 2, line_id. cbn [existsb].
  rewrite orb_false_r.
  destruct (classify line) as [indent checked rest|refs|].
  - destruct (task_fields rest) as [[[id' optional] ttl]|].
    + destruct (seen id' st) eqn:Hseen.
      * unfold seen in *; cbn [parsed]. rewrite <- Hreads. unfold seen.
        cbn [option_string_eqb].
        destruct (String.eqb_spec id' id) as [->|]; [|now rewrite orb_false_r].
        now rewrite Hseen.
      * unfold seen; cbn [parsed existsb snd taskId option_string_eqb].
        rewrite <- Hreads, orb_comm. unfold seen. f_equal. apply String.eqb_sym.
    + unfold seen; cbn [parsed option_string_eqb]. rewrite orb_false_r. apply Hreads.
  - cbn [option_string_eqb]. rewrite orb_false_r, <- Hreads.
    unfold seen. destruct st as [[|[indent t] older] ws]; reflexivity.
  - cbn [option_string_eqb]. rewrite orb_false_r. apply Hreads.
Qed.

(** One line adds one record when it is well-formed, one warning when it is
    malformed, and nothing otherwise. *)
Lemma parse_line_counts (st : ParserState) (earlier : list string) (n : nat) (line : string) :
  reads st earlier ->
  List.length (parsed (parse_line st n line)) =
    List.length (parsed st) + (if well_formed earlier line then 1 else 0) /\
  List.length (warned (parse_line st n line)) =
    List.length (warned st) + (if malformed earlier line then 1 else 0).
Proof.
  intros Hreads.
  unfold TaskSync.parse_line, malformed, well_formed, is_checklist, line_id.
  destruct (classify line) as [indent checked rest|refs|].
  - destruct (task_fields rest) as [[[id optional] ttl]|].
    + rewrite <- Hreads. destruct (seen id st); cbn; lia.
    + cbn; lia.
  - destruct st as [[|[indent t] older] ws]; cbn; lia.
  - cbn; lia.
Qed.

Lemma parse_from_counts (lines earlier : list string) (st : ParserState) (n : nat) :
  reads st earlier ->
  List.length (parsed (parse_from st n lines)) =
    List.length (parsed st) + count_lines well_formed earlier lines /\
  List.length (warned (parse_from st n lines)) =
    List.length (warned st) + count_lines malformed earlier lines.
Proof.
  revert earlier st n. induction lines as [|line more IH]; intros earlier st n Hreads.
  - cbn. lia.
  - cbn [TaskSync.parse_from count_lines].
    destruct (parse_line_counts st earlier n line Hreads) as [Hp Hw].
    destruct (IH (earlier ++ [line])%list (parse_line st n line) (S n)
                (parse_line_reads st earlier n line Hreads)) as [Hp' Hw'].
    rewrite Hp', Hw', Hp, Hw. lia.
Qed.

End Parser.

End ParserFacts.

(* ================================================================== *)
(** ** Keys, labels and the tracker *)

Module TrackerFacts.
Import TaskSync.
Local Open Scope nat_scope.

Lemma option_string_eqb_eq (a b : option string) :
  option_string_eqb a b = true <-> a = b.
Proof.
  destruct a as [x|], b as [y|]; cbn; try (split; congruence).
  rewrite String.eqb_eq. split; congruence.
Qed.

Lemma SyncKey_eqb_eq (k1 k2 : SyncKey) : SyncKey_eqb k1 k2 = true <-> k1 = k2.
Proof.
  destruct k1 as [[s1 t1] r1], k2 as [[s2 t2] r2]. unfold SyncKey_eqb.
  rewrite !andb_true_iff, !String.eqb_eq, option_string_eqb_eq.
  split; [intros [[-> ->] ->]; reflexivity | intros [= -> -> ->]; auto].
Qed.

Lemma SyncKey_eqb_refl (k : SyncKey) : SyncKey_eqb k k = true.
Proof. now apply SyncKey_eqb_eq. Qed.

Lemma SyncKey_eqb_neq (k1 k2 : SyncKey) : k1 <> k2 -> SyncKey_eqb k1 k2 = false.
Proof.
  intros Hne. destruct (SyncKey_eqb k1 k2) eqn:H; [|reflexivity].
  now apply SyncKey_eqb_eq in H.
Qed.

Lemma strip_prefix_Some (p l v : string) :
  strip_prefix p l = Some v -> l = (p ++ v)%string.
Proof.
  revert l; induction p as [|a p IH]; intros l; cbn.
  - congruence.
  - destruct l as [|b l]; [discriminate|].
    destruct (Ascii.eqb_spec a b) as [->|]; [|discriminate].
    intros H. now rewrite (IH _ H).
Qed.

Lemma labelValue_In (p v : string) (ls : list string) :
  labelValue p ls = Some v -> In (p ++ v)%string ls.
Proof.
  induction ls as [|l more IH]; cbn; [discriminate|].
  destruct (strip_prefix p l) as [v'|] eqn:Hl.
  - intros [= ->]. left. now apply strip_prefix_Some in Hl.
  - auto.
Qed.

(** The labels of a key decode to the key. *)
Lemma issueKey_keyLabels (i : IssueRecord) (k : SyncKey) :
  labels i = keyLabels k -> issueKey i = Some k.
Proof.
  destruct k as [[s t] [r|]]; unfold issueKey; intros ->; reflexivity.
Qed.

(** An issue is tagged by its labels alone. *)
Lemma tagged_labels (k : SyncKey) (i j : IssueRecord) :
  labels i = labels j -> tagged k i = tagged k j.
Proof. unfold tagged, issueKey. now intros ->. Qed.

Lemma tagged_inj (k1 k2 : SyncKey) (i : IssueRecord) :
  tagged k1 i = true -> tagged k2 i = true -> k1 = k2.
Proof.
  unfold tagged. destruct (issueKey i) as [k|]; [|discriminate].
  rewrite !SyncKey_eqb_eq. congruence.
Qed.

Lemma tagged_repo_label (s t repo : string) (i : IssueRecord) :
  tagged (s, t, Some repo) i = true -> In ("repo:" ++ repo)%string (labels i).
Proof.
  unfold tagged, issueKey.
  destruct (labelValue "spec:" (labels i)); [|discriminate].
  destruct (labelValue "task:" (labels i)); [|discriminate].
  rewrite SyncKey_eqb_eq. intros [= _ _ H]. now apply labelValue_In.
Qed.

(** *** The canonical issue *)

Lemma canonical_None (found : list IssueRecord) :
  canonical found = None <-> found = [].
Proof.
  destruct found as [|i more]; cbn [canonical]; [tauto|].
  destruct (canonical more) as [j|]; [destruct (number j <? number i)|];
    split; intros H; discriminate H.
Qed.

Lemma canonical_In (found : list IssueRecord) (i : IssueRecord) :
  canonical found = Some i -> In i found.
Proof.
  revert i; induction found as [|x more IH]; intros i; cbn [canonical]; [discriminate|].
  destruct (canonical more) as [j|].
  - destruct (number j <? number x); intros [= <-]; cbn; auto.
  - intros [= <-]. cbn; auto.
Qed.

(** A change of the issues that keeps their numbers keeps the choice. *)
Lemma canonical_map (f : IssueRecord -> IssueRecord) (found : list IssueRecord) :
  (forall i, number (f i) = number i) ->
  canonical (map f found) = option_map f (canonical found).
Proof.
  intros Hf. induction found as [|x more IH]; cbn [canonical map]; [reflexivity|].
  rewrite IH. destruct (canonical more) as [j|]; cbn [option_map]; [|reflexivity].
  rewrite !Hf. now destruct (number j <? number x).
Qed.

End TrackerFacts.

(* ================================================================== *)
(** ** What the work on one key does to the tracker *)

Module EffectFacts.
Import TaskSync TrackerFacts.
Local Open Scope nat_scope.

Lemma searchByKey_clock (tr : Tracker) (c : nat) (k : SyncKey) :
  searchByKey {| issues := issues tr; clock := c |} k = searchByKey tr k.
Proof. reflexivity. Qed.

Lemma searchByKey_In (tr : Tracker) (k : SyncKey) (i : IssueRecord) :
  In i (searchByKey tr k) <-> In i (issues tr) /\ tagged k i = true.
Proof. unfold searchByKey. apply filter_In. Qed.

Lemma mappedIssue_In (tr : Tracker) (k : SyncKey) (i : IssueRecord) :
  mappedIssue tr k = Some i -> In i (issues tr) /\ tagged k i = true.
Proof. intros H. apply searchByKey_In. now apply canonical_In. Qed.

(** Issue numbers identify issues. *)
Lemma numbered_inj (tr : Tracker) (i j : IssueRecord) :
  numbered tr -> In i (issues tr) -> In j (issues tr) -> number i = number j -> i = j.
Proof.
  unfold numbered. induction (issues tr) as [|x l IH]; cbn; [tauto|].
  intros Hnd [->|Hi] [->|Hj] Heq; inversion Hnd as [|? ? Hx Hl]; subst.
  - reflexivity.
  - exfalso. apply Hx. rewrite Heq. now apply in_map.
  - exfalso. apply Hx. rewrite <- Heq. now apply in_map.
  - now apply IH.
Qed.

Lemma freshNumber_fresh (tr : Tracker) (i : IssueRecord) :
  In i (issues tr) -> number i < freshNumber tr.
Proof.
  intros Hi. unfold freshNumber.
  assert (H : Forall (fun n => n <= list_max (map number (issues tr)))
                (map number (issues tr))) by now apply list_max_le.
  rewrite Forall_forall in H. specialize (H (number i) (in_map number _ _ Hi)). lia.
Qed.

Lemma touch_number (n : nat) (g : IssueRecord -> IssueRecord) (i : IssueRecord) :
  (forall x, number (g x) = number x) -> number (touch n g i) = number i.
Proof. intros Hg. unfold touch. now destruct (number i =? n). Qed.

Lemma touch_other (n : nat) (g : IssueRecord -> IssueRecord) (i : IssueRecord) :
  number i <> n -> touch n g i = i.
Proof. intros Hne. unfold touch. now destruct (Nat.eqb_spec (number i) n). Qed.

Lemma touch_hit (n : nat) (g : IssueRecord -> IssueRecord) (i : IssueRecord) :
  number i = n -> touch n g i = g i.
Proof. intros <-. unfold touch. now rewrite Nat.eqb_refl. Qed.

(** A touched issue keeps its labels: the only issue with the number of the
    canonical one is the canonical one. *)
Lemma touch_labels (k : SyncKey) (tr : Tracker) (i0 i : IssueRecord)
    (g : IssueRecord -> IssueRecord) :
  numbered tr ->
  mappedIssue tr k = Some i0 ->
  labels (g i0) = labels i0 ->
  In i (issues tr) ->
  labels (touch (number i0) g i) = labels i.
Proof.
  intros Hnum Hmap Hlab Hi. unfold touch.
  destruct (Nat.eqb_spec (number i) (number i0)) as [Heq|]; [|reflexivity].
  apply mappedIssue_In in Hmap as [Hi0 _].
  now rewrite (numbered_inj tr i i0 Hnum Hi Hi0 Heq).
Qed.

Lemma effect_numbered (k : SyncKey) (tr tr' : Tracker) :
  numbered tr -> effect k tr tr' -> numbered tr'.
Proof.
  intros Hnum Heff. unfold numbered in *. destruct Heff as [tr0 c|tr0 new c Hnone Hkey Hfresh|tr0 i0 g c Hmap Hg Hlab];
    cbn [issues].
  - exact Hnum.
  - rewrite map_app. cbn [map]. apply NoDup_app; [exact Hnum | repeat constructor; intros [] |].
    intros n Hin [Hn|[]]. apply in_map_iff in Hin as (i & Hi & Hin).
    pose proof (freshNumber_fresh tr0 i Hin). lia.
  - rewrite map_map. erewrite map_ext; [exact Hnum|].
    intros i. now apply touch_number.
Qed.

(** The issues of every key keep their numbers and labels, unless the key is
    [k] and its first issue has just been created. *)
Lemma effect_search (k : SyncKey) (tr tr' : Tracker) (k' : SyncKey) :
  numbered tr -> effect k tr tr' ->
  Forall2 sameTag (searchByKey tr k') (searchByKey tr' k') \/
  (k' = k /\ searchByKey tr k' = [] /\ exists new, searchByKey tr' k' = [new]).
Proof.
  intros Hnum Heff.
  destruct Heff as [tr0 c|tr0 new c Hnone Hkey Hfresh|tr0 i0 g c Hmap Hg Hlab].
  - left. rewrite searchByKey_clock.
    induction (searchByKey tr0 k'); constructor; [now split | assumption].
  - unfold searchByKey at 2 4. cbn [issues]. rewrite filter_app. cbn [filter].
    unfold tagged at 2 4. rewrite Hkey.
    destruct (SyncKey_eqb k k') eqn:Hk.
    + right. apply SyncKey_eqb_eq in Hk as <-. fold (searchByKey tr0 k).
      rewrite Hnone. split; [reflexivity|]. split; [reflexivity|]. now exists new.
    + left. rewrite app_nil_r. fold (searchByKey tr0 k').
      induction (searchByKey tr0 k'); constructor; [now split | assumption].
  - left. unfold searchByKey. cbn [issues].
    assert (Hl : forall i, In i (issues tr0) ->
                 labels (touch (number i0) g i) = labels i)
      by (intros i Hi; now apply (touch_labels k tr0)).
    clear Hmap Hnum.
    induction (issues tr0) as [|x l IH]; cbn [map filter]; [constructor|].
    rewrite (tagged_labels k' _ x (Hl x (or_introl eq_refl))).
    destruct (tagged k' x).
    + constructor.
      * split; [symmetry; now apply touch_number | symmetry; apply Hl; now left].
      * apply IH. intros i Hi. apply Hl. now right.
    + apply IH. intros i Hi. apply Hl. now right.
Qed.

(** The work on [k] leaves the issues of every other key as they are. *)
Lemma effect_other (k : SyncKey) (tr tr' : Tracker) (k' : SyncKey) :
  numbered tr -> effect k tr tr' ->
  k' <> k -> searchByKey tr' k' = searchByKey tr k'.
Proof.
  intros Hnum Heff Hne.
  destruct Heff as [tr0 c|tr0 new c Hnone Hkey Hfresh|tr0 i0 g c Hmap Hg Hlab].
  - reflexivity.
  - unfold searchByKey. cbn [issues]. rewrite filter_app. cbn [filter].
    unfold tagged at 2. rewrite Hkey, SyncKey_eqb_neq by congruence.
    apply app_nil_r.
  - unfold searchByKey. cbn [issues].
    pose proof (mappedIssue_In _ _ _ Hmap) as [Hi0 Htag].
    assert (Hl : forall i, In i (issues tr0) -> tagged k' i = true ->
                 touch (number i0) g i = i).
    { intros i Hi Hti. apply touch_other. intros Heq.
      apply Hne. rewrite (numbered_inj tr0 i i0 Hnum Hi Hi0 Heq) in Hti.
      now apply (tagged_inj _ _ i0). }
    assert (Hlab' : forall i, In i (issues tr0) ->
                 labels (touch (number i0) g i) = labels i)
      by (intros i Hi; now apply (touch_labels k tr0)).
    clear Hmap Hnum Hi0.
    induction (issues tr0) as [|x l IH]; cbn [map filter]; [reflexivity|].
    rewrite (tagged_labels k' _ x (Hlab' x (or_introl eq_refl))).
    destruct (tagged k' x) eqn:Htx.
    + rewrite (Hl x (or_introl eq_refl) Htx). f_equal.
      apply IH; intros; [apply Hl | apply Hlab']; auto; now right.
    + apply IH; intros; [apply Hl | apply Hlab']; auto; now right.
Qed.

(** No key gets a second issue. *)
Lemma effect_issuesOf (k : SyncKey) (tr tr' : Tracker) (k' : SyncKey) :
  numbered tr -> effect k tr tr' ->
  issuesOf tr' k' = issuesOf tr k' \/ (issuesOf tr k' = 0 /\ issuesOf tr' k' = 1).
Proof.
  intros Hnum Heff.
  unfold issuesOf.
  destruct (effect_search k tr tr' k' Hnum Heff) as [Hsame|(_ & -> & new & ->)].
  - left. symmetry. eapply Forall2_length, Hsame.
  - right. split; reflexivity.
Qed.

(** A revision in place of the canonical issue of [k] is seen by every search. *)
Lemma search_touch (k : SyncKey) (tr : Tracker) (i0 : IssueRecord)
    (g : IssueRecord -> IssueRecord) (c : nat) (k' : SyncKey) :
  numbered tr ->
  mappedIssue tr k = Some i0 ->
  labels (g i0) = labels i0 ->
  searchByKey {| issues := map (touch (number i0) g) (issues tr); clock := c |} k' =
  map (touch (number i0) g) (searchByKey tr k').
Proof.
  intros Hnum Hmap Hlab. unfold searchByKey. cbn [issues].
  assert (Hl : forall i, In i (issues tr) ->
               labels (touch (number i0) g i) = labels i)
    by (intros i Hi; now apply (touch_labels k tr)).
  clear Hmap Hnum.
  induction (issues tr) as [|x l IH]; cbn [map filter]; [reflexivity|].
  rewrite (tagged_labels k' _ x (Hl x (or_introl eq_refl))).
  destruct (tagged k' x); cbn [map]; [f_equal|]; apply IH; intros; apply Hl; now right.
Qed.

Lemma mapped_touch (k : SyncKey) (tr : Tracker) (i0 : IssueRecord)
    (g : IssueRecord -> IssueRecord) (c : nat) :
  numbered tr ->
  mappedIssue tr k = Some i0 ->
  (forall i, number (g i) = number i) ->
  labels (g i0) = labels i0 ->
  mappedIssue {| issues := map (touch (number i0) g) (issues tr); clock := c |} k =
  Some (g i0).
Proof.
  intros Hnum Hmap Hg Hlab. unfold mappedIssue.
  rewrite (search_touch k tr i0 g c k Hnum Hmap Hlab).
  rewrite canonical_map by (intros; now apply touch_number).
  unfold mappedIssue in Hmap. rewrite Hmap. cbn [option_map].
  now rewrite touch_hit.
Qed.

Lemma effects_numbered (P : SyncKey -> Prop) (tr tr' : Tracker) :
  numbered tr -> effects P tr tr' -> numbered tr'.
Proof.
  intros Hnum Hs. induction Hs as [|tr2 tr3 k _ IH _ Heff]; [assumption|].
  exact (effect_numbered k tr2 tr3 IH Heff).
Qed.

Lemma effects_trans (P : SyncKey -> Prop) (tr1 tr2 tr3 : Tracker) :
  effects P tr1 tr2 -> effects P tr2 tr3 -> effects P tr1 tr3.
Proof.
  intros H12 H23. induction H23 as [|tr3 tr4 k _ IH Hk Heff]; [assumption|].
  exact (effects_step P tr1 tr3 tr4 k IH Hk Heff).
Qed.

Lemma effects_weaken (P Q : SyncKey -> Prop) (tr tr' : Tracker) :
  (forall k, P k -> Q k) -> effects P tr tr' -> effects Q tr tr'.
Proof.
  intros HPQ Hs. induction Hs as [|tr2 tr3 k _ IH Hk Heff]; [constructor|].
  exact (effects_step Q tr tr2 tr3 k IH (HPQ k Hk) Heff).
Qed.

(** Work on other keys leaves the issues of a key as they are. *)
Lemma effects_other (P : SyncKey -> Prop) (tr tr' : Tracker) (k : SyncKey) :
  numbered tr -> effects P tr tr' -> ~ P k ->
  searchByKey tr' k = searchByKey tr k.
Proof.
  intros Hnum Hs Hk. induction Hs as [|tr2 tr3 k' Hs IH Hk' Heff]; [reflexivity|].
  rewrite <- IH.
  apply (effect_other k' tr2 tr3 k);
    [exact (effects_numbered P tr tr2 Hnum Hs) | assumption |].
  intros ->. contradiction.
Qed.

Lemma sameTag_refl (l : list IssueRecord) : Forall2 sameTag l l.
Proof. induction l; constructor; [now split | assumption]. Qed.

Lemma sameTag_trans (l1 l2 l3 : list IssueRecord) :
  Forall2 sameTag l1 l2 -> Forall2 sameTag l2 l3 -> Forall2 sameTag l1 l3.
Proof.
  intros H12. revert l3. induction H12 as [|a b l1 l2 [Hn Hl] _ IH]; intros l3 H23.
  - inversion H23. constructor.
  - inversion H23 as [|b' c l2' l3' [Hn' Hl'] Hrest]; subst.
    constructor; [split; congruence | now apply IH].
Qed.

(** A key that has an issue keeps its issues, by number and labels. *)
Lemma effects_keep (P : SyncKey -> Prop) (tr tr' : Tracker) (k : SyncKey) :
  numbered tr -> effects P tr tr' -> searchByKey tr k <> [] ->
  Forall2 sameTag (searchByKey tr k) (searchByKey tr' k).
Proof.
  intros Hnum Hs Hne. induction Hs as [|tr2 tr3 k' Hs IH Hk' Heff].
  - apply sameTag_refl.
  - destruct (effect_search k' tr2 tr3 k (effects_numbered _ _ _ Hnum Hs) Heff)
      as [Hsame|(_ & Hnil & _)].
    + eapply sameTag_trans; eauto.
    + rewrite Hnil in IH. inversion IH. congruence.
Qed.

(** No key ever gets a second issue. *)
Lemma effects_issuesOf (P : SyncKey -> Prop) (tr tr' : Tracker) (k : SyncKey) :
  numbered tr -> effects P tr tr' ->
  issuesOf tr' k <= Nat.max 1 (issuesOf tr k).
Proof.
  intros Hnum Hs. induction Hs as [|tr2 tr3 k' Hs IH Hk' Heff]; [lia|].
  destruct (effect_issuesOf k' tr2 tr3 k (effects_numbered _ _ _ Hnum Hs) Heff); lia.
Qed.

(** The canonical issues of two lists that agree on numbers and labels agree
    on number and labels. *)
Lemma canonical_sameTag (l1 l2 : list IssueRecord) :
  Forall2 sameTag l1 l2 ->
  match canonical l1, canonical l2 with
  | Some a, Some b => sameTag a b
  | None, None => True
  | _, _ => False
  end.
Proof.
  induction 1 as [|x y l1 l2 [Hn Hl] _ IH]; cbn [canonical]; [exact I|].
  destruct (canonical l1) as [a|], (canonical l2) as [b|]; try contradiction.
  - destruct IH as [Hab Hlab]. rewrite Hab, Hn.
    destruct (number b <? number y); split; assumption.
  - now split.
Qed.

End EffectFacts.

(* ================================================================== *)
(** ** One task: the synchronizer and the reconciler *)

Module EngineFacts.
Import TaskSync TrackerFacts EffectFacts.
Local Open Scope nat_scope.

Lemma tracker_eta (tr : Tracker) : {| issues := issues tr; clock := clock tr |} = tr.
Proof. now destruct tr. Qed.

Lemma searchByKey_issues (tr tr' : Tracker) (k : SyncKey) :
  issues tr' = issues tr -> searchByKey tr' k = searchByKey tr k.
Proof. unfold searchByKey. now intros ->. Qed.

Lemma consistent_stateFor (s : TaskStatus) : consistent s (stateFor s) = true.
Proof. now destruct s. Qed.

Lemma consistent_statusFor (i : IssueState) : consistent (statusFor i) i = true.
Proof. now destruct i. Qed.

Lemma consistent_eq (s : TaskStatus) (i : IssueState) :
  consistent s i = true <-> i = stateFor s.
Proof. destruct s, i; cbn; split; congruence. Qed.

Lemma keepsText_refl (tr : Tracker) : keepsText tr tr.
Proof. intros k. destruct (mappedIssue tr k); [repeat split | exact I]. Qed.

Lemma keepsText_trans (tr1 tr2 tr3 : Tracker) :
  keepsText tr1 tr2 -> keepsText tr2 tr3 -> keepsText tr1 tr3.
Proof.
  intros H12 H23 k. specialize (H12 k). specialize (H23 k).
  destruct (mappedIssue tr1 k), (mappedIssue tr2 k), (mappedIssue tr3 k);
    try contradiction; try exact I.
  destruct H12 as (? & ? & ?), H23 as (? & ? & ?). repeat split; congruence.
Qed.

Lemma keepsText_issues (tr tr' : Tracker) :
  issues tr' = issues tr -> keepsText tr tr'.
Proof.
  intros H k. unfold mappedIssue. rewrite (searchByKey_issues tr tr' k H).
  destruct (canonical (searchByKey tr k)); [repeat split | exact I].
Qed.

Section Engine.
Variable normalize : string -> string.
Variable template : string -> string -> string -> list string -> string.

Local Abbreviation upToDate := (TaskSync.upToDate normalize template).
Local Abbreviation settled := (TaskSync.settled normalize template).
Local Abbreviation syncOne := (TaskSync.syncOne normalize template).

Lemma upToDate_sameText (x y : IssueRecord) (t : TaskRecord) :
  sameText x y -> upToDate y t = upToDate x t.
Proof. intros (_ & Ht & Hb). unfold TaskSync.upToDate. now rewrite Ht, Hb. Qed.

Lemma settled_keepsText (tr tr' : Tracker) (cfg : Config) (t : TaskRecord) :
  keepsText tr tr' -> settled tr cfg t -> settled tr' cfg t.
Proof.
  intros Hk (i & Hi & Hu). specialize (Hk (syncKey cfg t)). rewrite Hi in Hk.
  destruct (mappedIssue tr' (syncKey cfg t)) as [j|] eqn:Hj; [|contradiction].
  exists j. split; [exact Hj|]. now rewrite (upToDate_sameText i j t Hk).
Qed.

(** The synchronizer on one task: one effect on the task's key, after which
    the task is settled; the local files are not touched. *)
Lemma syncOne_spec (cfg : Config) (tr : Tracker) (r : Repo) (t : TaskRecord) :
  numbered tr ->
  exists tr' ws,
    syncOne cfg (tr, r) t = ((tr', r), ws) /\
    effect (syncKey cfg t) tr tr' /\
    settled tr' cfg t.
Proof.
  intros Hnum. unfold TaskSync.syncOne, decideSync. cbn [fst].
  destruct (canonical (searchByKey tr (syncKey cfg t))) as [i|] eqn:Hc.
  - destruct (upToDate i t) eqn:Hu.
    + exists tr, []. split; [reflexivity|]. split.
      * rewrite <- (tracker_eta tr) at 2. constructor.
      * now exists i.
    + set (g := fun x : IssueRecord =>
                  {| number := number x; issueTitle := desiredTitle t;
                     body := desiredBody template t; state := state x;
                     labels := labels i; sourceRepo := sourceRepo x;
                     updatedAt := clock tr |}).
      exists {| issues := map (touch (number i) g) (issues tr); clock := S (clock tr) |},
             [UpdateIssue (number i) (desiredTitle t) (desiredBody template t) (labels i)].
      split; [reflexivity|]. split.
      * now apply effect_touch.
      * exists (g i). split; [now apply mapped_touch|].
        unfold TaskSync.upToDate. cbn. now rewrite !String.eqb_refl.
  - apply canonical_None in Hc.
    set (new := {| number := freshNumber tr; issueTitle := desiredTitle t;
                   body := desiredBody template t; state := open;
                   labels := keyLabels (syncKey cfg t);
                   sourceRepo := repoIdentifier cfg; updatedAt := clock tr |}).
    assert (Hkey : issueKey new = Some (syncKey cfg t)) by now apply issueKey_keyLabels.
    exists {| issues := (issues tr ++ [new])%list; clock := S (clock tr) |},
           [CreateIssue (desiredTitle t) (desiredBody template t) (keyLabels (syncKey cfg t))].
    split; [reflexivity|]. split.
    + now apply effect_create.
    + exists new. split.
      * unfold mappedIssue, searchByKey. cbn [issues]. rewrite filter_app.
        fold (searchByKey tr (syncKey cfg t)). rewrite Hc. cbn [filter app].
        unfold tagged. rewrite Hkey, SyncKey_eqb_refl. reflexivity.
      * unfold TaskSync.upToDate. cbn. now rewrite !String.eqb_refl.
Qed.

(** A quiet synchronizer: a settled task costs no write. *)
Lemma syncOne_quiet (cfg : Config) (st : Tracker * Repo) (t : TaskRecord) :
  settled (fst st) cfg t -> syncOne cfg st t = (st, []).
Proof.
  intros (i & Hi & Hu). unfold TaskSync.syncOne, decideSync.
  unfold mappedIssue in Hi. now rewrite Hi, Hu.
Qed.

(** The reconciler on one task: one effect on the task's key that keeps every
    title and body; afterwards the issue and the task agree, the task being
    the one of the files when the checkbox was rewritten. *)
Lemma reconcileOne_spec (cfg : Config) (tr : Tracker) (r : Repo) (t : TaskRecord) :
  numbered tr ->
  exists tr' r' ws,
    reconcileOne cfg (tr, r) t = ((tr', r'), ws) /\
    effect (syncKey cfg t) tr tr' /\
    keepsText tr tr' /\
    ((r' = r /\ agrees tr' cfg t) \/
     (mode cfg = two_way /\ issues tr' = issues tr /\
      exists i, mappedIssue tr (syncKey cfg t) = Some i /\
                r' = rewriteCheckbox (clock tr) r (specName t) (taskId t)
                       (statusFor (state i)))).
Proof.
  intros Hnum. unfold reconcileOne, decideReconcile. cbn [fst snd].
  destruct (mappedIssue tr (syncKey cfg t)) as [i|] eqn:Hmap.
  2:{ exists tr, r, []. split; [reflexivity|]. split.
      - rewrite <- (tracker_eta tr) at 2. constructor.
      - split; [apply keepsText_refl|]. left. split; [reflexivity|].
        unfold agrees. now rewrite Hmap. }
  destruct (consistent (status t) (state i)) eqn:Hcons.
  { exists tr, r, []. split; [reflexivity|]. split.
    - rewrite <- (tracker_eta tr) at 2. constructor.
    - split; [apply keepsText_refl|]. left. split; [reflexivity|].
      unfold agrees. now rewrite Hmap. }
  set (g := fun x : IssueRecord =>
              {| number := number x; issueTitle := issueTitle x; body := body x;
                 state := stateFor (status t); labels := labels x;
                 sourceRepo := sourceRepo x; updatedAt := clock tr |}).
  assert (Hset :
    let tr' := {| issues := map (touch (number i) g) (issues tr); clock := S (clock tr) |} in
    effect (syncKey cfg t) tr tr' /\ keepsText tr tr' /\ agrees tr' cfg t).
  { cbn zeta. split; [now apply effect_touch|]. split.
    - intros k.
      assert (Hm : mappedIssue {| issues := map (touch (number i) g) (issues tr);
                                  clock := S (clock tr) |} k =
                   option_map (touch (number i) g) (mappedIssue tr k)).
      { unfold mappedIssue.
        rewrite (search_touch (syncKey cfg t) tr i g (S (clock tr)) k Hnum Hmap eq_refl).
        apply canonical_map. intros; now apply touch_number. }
      rewrite Hm. destruct (mappedIssue tr k) as [x|]; cbn [option_map]; [|exact I].
      unfold touch. destruct (number x =? number i); repeat split.
    - unfold agrees. rewrite (mapped_touch (syncKey cfg t) tr i g _ Hnum Hmap) by auto.
      apply consistent_stateFor. }
  destruct Hset as (Heff & Hkeep & Hagree).
  destruct (mode cfg) eqn:Hmode.
  - eexists _, r, _. split; [reflexivity|]. repeat split; auto.
  - destruct (fileModified r (sourceFile t) <? updatedAt i).
    + eexists _, _, _. split; [reflexivity|]. split; [constructor|].
      split; [now apply keepsText_issues|].
      right. split; [reflexivity|]. split; [reflexivity|]. now exists i.
    + eexists _, r, _. split; [reflexivity|]. repeat split; auto.
Qed.

Lemma reconcileOne_quiet (cfg : Config) (st : Tracker * Repo) (t : TaskRecord) :
  agrees (fst st) cfg t -> reconcileOne cfg st t = (st, []).
Proof.
  unfold agrees, reconcileOne, decideReconcile.
  destruct (mappedIssue (fst st) (syncKey cfg t)) as [i|]; [|reflexivity].
  now intros ->.
Qed.

Lemma reconcileOne_one_way (cfg : Config) (st : Tracker * Repo) (t : TaskRecord) :
  mode cfg = one_way -> snd (fst (reconcileOne cfg st t)) = snd st.
Proof.
  intros Hmode. unfold reconcileOne, decideReconcile. destruct st as [tr r]. cbn [fst snd].
  destruct (mappedIssue tr (syncKey cfg t)) as [i|]; [|reflexivity].
  destruct (consistent (status t) (state i)); [reflexivity|].
  now rewrite Hmode.
Qed.

End Engine.

End EngineFacts.

(* ================================================================== *)
(** ** A whole run *)

Module RunFacts.
Import TaskSync TrackerFacts EffectFacts EngineFacts.
Local Open Scope nat_scope.

Lemma NoDup_map_In_eq {A B : Type} (f : A -> B) (l : list A) (x y : A) :
  NoDup (map f l) -> In x l -> In y l -> f x = f y -> x = y.
Proof.
  induction l as [|a l IH]; cbn; [tauto|].
  intros Hnd [->|Hx] [->|Hy] Heq; inversion Hnd as [|? ? Ha Hl]; subst.
  - reflexivity.
  - exfalso. apply Ha. rewrite Heq. now apply in_map.
  - exfalso. apply Ha. rewrite <- Heq. now apply in_map.
  - now apply IH.
Qed.

Lemma syncKey_same (cfg : Config) (t x : TaskRecord) :
  String.eqb (specName x) (specName t) && String.eqb (taskId x) (taskId t) = true <->
  syncKey cfg x = syncKey cfg t.
Proof.
  unfold syncKey. rewrite andb_true_iff, !String.eqb_eq. split.
  - now intros [-> ->].
  - intros [= -> ->]. auto.
Qed.

Lemma sameTask_refl (t : TaskRecord) : sameTask t t.
Proof. repeat split. Qed.

Lemma sameTask_key (cfg : Config) (t t' : TaskRecord) :
  sameTask t t' -> syncKey cfg t = syncKey cfg t'.
Proof. intros (Hs & Hi & _). unfold syncKey. now rewrite Hs, Hi. Qed.

Lemma sameTasks_refl (l : list TaskRecord) : Forall2 sameTask l l.
Proof. induction l; constructor; [apply sameTask_refl | assumption]. Qed.

Lemma sameTasks_trans (l1 l2 l3 : list TaskRecord) :
  Forall2 sameTask l1 l2 -> Forall2 sameTask l2 l3 -> Forall2 sameTask l1 l3.
Proof.
  intros H12. revert l3. induction H12 as [|a b l1 l2 Hab _ IH]; intros l3 H23.
  - inversion H23. constructor.
  - inversion H23 as [|b' c l2' l3' Hbc Hrest]; subst.
    constructor; [|now apply IH].
    destruct Hab as (?&?&?&?&?&?), Hbc as (?&?&?&?&?&?). repeat split; congruence.
Qed.

Lemma sameTasks_keys (cfg : Config) (l l' : list TaskRecord) :
  Forall2 sameTask l l' -> map (syncKey cfg) l' = map (syncKey cfg) l.
Proof.
  induction 1 as [|a b l l' Hab _ IH]; cbn; [reflexivity|].
  now rewrite IH, (sameTask_key cfg a b Hab).
Qed.

Lemma sameTasks_In (l l' : list TaskRecord) (t' : TaskRecord) :
  Forall2 sameTask l l' -> In t' l' -> exists t, In t l /\ sameTask t t'.
Proof.
  induction 1 as [|a b l l' Hab _ IH]; cbn; [tauto|].
  intros [<-|Hin]; [exists a; auto|].
  destruct (IH Hin) as (t & Ht & Hs). exists t. auto.
Qed.

(** Rewriting the checkbox of [t] changes the record of [t] and no other. *)
Lemma rewriteCheckbox_tasks (cfg : Config) (now : nat) (r : Repo)
    (done todo : list TaskRecord) (t : TaskRecord) (s : TaskStatus) :
  tasks r = (done ++ t :: todo)%list ->
  NoDup (map (syncKey cfg) (done ++ t :: todo)) ->
  exists t',
    tasks (rewriteCheckbox now r (specName t) (taskId t) s) = (done ++ t' :: todo)%list /\
    sameTask t t' /\ status t' = s.
Proof.
  intros Htasks Hnd. unfold rewriteCheckbox. cbn [tasks]. rewrite Htasks.
  set (f := fun x : TaskRecord =>
              if String.eqb (specName x) (specName t) && String.eqb (taskId x) (taskId t) then
                {| specName := specName x; taskId := taskId x; title := title x;
                   description := description x; status := s;
                   requirementRefs := requirementRefs x;
                   isOptional := isOptional x; parentTaskId := parentTaskId x;
                   sourceFile := sourceFile x;
                   sourceLineRange := sourceLineRange x |}
              else x).
  assert (Hother : forall x, In x (done ++ todo) -> f x = x).
  { intros x Hx. unfold f.
    destruct (String.eqb (specName x) (specName t) && String.eqb (taskId x) (taskId t))
      eqn:Hsame; [|reflexivity].
    exfalso. apply (syncKey_same cfg) in Hsame.
    rewrite map_app in Hnd. cbn [map] in Hnd.
    apply NoDup_remove_2 in Hnd. apply Hnd. rewrite <- map_app, <- Hsame.
    now apply in_map. }
  exists (f t). rewrite map_app. cbn [map].
  rewrite (map_ext_in f (fun x => x) done), (map_ext_in f (fun x => x) todo), !map_id.
  - split; [reflexivity|]. unfold f. rewrite !String.eqb_refl. cbn. repeat split.
  - intros x Hx. apply Hother, in_or_app. now right.
  - intros x Hx. apply Hother, in_or_app. now left.
Qed.

Section Engine.
Variable normalize : string -> string.
Variable template : string -> string -> string -> list string -> string.

Local Abbreviation settled := (TaskSync.settled normalize template).
Local Abbreviation syncOne := (TaskSync.syncOne normalize template).
Local Abbreviation syncRun := (TaskSync.syncRun normalize template).

Lemma settled_sameTask (tr : Tracker) (cfg : Config) (t t' : TaskRecord) :
  sameTask t t' -> settled tr cfg t -> settled tr cfg t'.
Proof.
  intros Hs (i & Hi & Hu). exists i.
  rewrite <- (sameTask_key cfg t t' Hs). split; [exact Hi|].
  destruct Hs as (Hsp & Hid & Hti & Hde & Hre & _).
  unfold upToDate, desiredTitle, desiredBody in *.
  now rewrite <- Hsp, <- Hid, <- Hti, <- Hde, <- Hre.
Qed.

Lemma settled_search (tr tr' : Tracker) (cfg : Config) (t : TaskRecord) :
  searchByKey tr' (syncKey cfg t) = searchByKey tr (syncKey cfg t) ->
  settled tr cfg t -> settled tr' cfg t.
Proof.
  intros Hs (i & Hi & Hu). exists i. unfold mappedIssue in *. now rewrite Hs.
Qed.

Lemma agrees_search (tr tr' : Tracker) (cfg : Config) (t : TaskRecord) :
  searchByKey tr' (syncKey cfg t) = searchByKey tr (syncKey cfg t) ->
  agrees tr cfg t -> agrees tr' cfg t.
Proof. unfold agrees, mappedIssue. now intros ->. Qed.

(** The synchronizer's pass settles every task it is given. *)
Lemma sync_pass_spec (cfg : Config) (ts : list TaskRecord) :
  forall (tr : Tracker) (r : Repo),
    numbered tr ->
    NoDup (map (syncKey cfg) ts) ->
    exists tr' ws,
      pass (syncOne cfg) (tr, r) ts = ((tr', r), ws) /\
      effects (fun k => In k (map (syncKey cfg) ts)) tr tr' /\
      forall t, In t ts -> settled tr' cfg t.
Proof.
  induction ts as [|t more IH]; intros tr r Hnum Hnd.
  - exists tr, []. split; [reflexivity|]. split; [constructor|]. intros t [].
  - cbn [map] in Hnd. inversion Hnd as [|? ? Hfresh Hnd']; subst.
    destruct (syncOne_spec normalize template cfg tr r t Hnum) as (tr1 & ws1 & Hone & Heff & Hset).
    pose proof (effect_numbered _ _ _ Hnum Heff) as Hnum1.
    destruct (IH tr1 r Hnum1 Hnd') as (tr' & ws' & Hpass & Heffs & Hall).
    exists tr', (ws1 ++ ws')%list. cbn [pass]. rewrite Hone, Hpass.
    split; [reflexivity|]. split.
    + eapply effects_trans.
      * eapply effects_step; [constructor | | exact Heff]. cbn [map]. now left.
      * eapply effects_weaken; [|exact Heffs]. cbn [map]. intros k Hk. now right.
    + intros x [<-|Hx]; [|now apply Hall].
      eapply settled_search; [|exact Hset].
      now apply (effects_other _ tr1 tr' _ Hnum1 Heffs).
Qed.

(** The reconciler's pass: every task of the files agrees with its issue
    afterwards; titles and bodies are kept, and so is every field of the
    tasks but the status. *)
Lemma reconcile_pass_spec (cfg : Config) (todo : list TaskRecord) :
  forall (done : list TaskRecord) (tr : Tracker) (r : Repo),
    numbered tr ->
    tasks r = (done ++ todo)%list ->
    NoDup (map (syncKey cfg) (done ++ todo)) ->
    (forall t, In t done -> agrees tr cfg t) ->
    exists tr' r' ws,
      pass (reconcileOne cfg) (tr, r) todo = ((tr', r'), ws) /\
      effects (fun k => In k (map (syncKey cfg) todo)) tr tr' /\
      keepsText tr tr' /\
      Forall2 sameTask (tasks r) (tasks r') /\
      (forall t, In t (tasks r') -> agrees tr' cfg t) /\
      (mode cfg = one_way -> r' = r).
Proof.
  induction todo as [|t todo IH]; intros done tr r Hnum Htasks Hnd Hdone.
  - exists tr, r, []. split; [reflexivity|]. split; [constructor|].
    split; [apply keepsText_refl|]. split; [apply sameTasks_refl|].
    split; [|reflexivity]. rewrite Htasks, app_nil_r. exact Hdone.
  - destruct (reconcileOne_spec cfg tr r t Hnum)
      as (tr1 & r1 & ws1 & Hone & Heff & Hkeep & Hcase).
    pose proof (effect_numbered _ _ _ Hnum Heff) as Hnum1.
    assert (Hfresh : forall x, In x (done ++ todo) -> syncKey cfg x <> syncKey cfg t).
    { intros x Hx Heq. rewrite map_app in Hnd. cbn [map] in Hnd.
      apply NoDup_remove_2 in Hnd. apply Hnd. rewrite <- map_app, <- Heq.
      now apply in_map. }
    assert (Hnext : exists t',
              tasks r1 = ((done ++ [t']) ++ todo)%list /\ sameTask t t' /\
              Forall2 sameTask (tasks r) (tasks r1) /\
              (forall x, In x (done ++ [t']) -> agrees tr1 cfg x) /\
              (mode cfg = one_way -> r1 = r)).
    { destruct Hcase as [[-> Hagree]|(Hmode & Hiss & i & Hmap & ->)].
      - exists t. rewrite <- app_assoc. split; [exact Htasks|].
        split; [apply sameTask_refl|]. split; [apply sameTasks_refl|].
        split; [|reflexivity].
        intros x Hx. apply in_app_or in Hx as [Hx|[<-|[]]]; [|exact Hagree].
        eapply agrees_search; [|now apply Hdone].
        apply (effect_other _ _ _ _ Hnum Heff), Hfresh, in_or_app. now left.
      - destruct (rewriteCheckbox_tasks cfg (clock tr) r done todo t
                    (statusFor (state i)) Htasks Hnd) as (t' & Ht' & Hsame & Hstatus).
        exists t'. rewrite <- app_assoc. split; [exact Ht'|]. split; [exact Hsame|].
        split.
        { rewrite Ht', Htasks. apply Forall2_app; [apply sameTasks_refl|].
          constructor; [exact Hsame | apply sameTasks_refl]. }
        split; [|intros Hone_way; congruence].
        intros x Hx. apply in_app_or in Hx as [Hx|[<-|[]]].
        + eapply agrees_search; [apply searchByKey_issues, Hiss | now apply Hdone].
        + unfold agrees, mappedIssue.
          rewrite (searchByKey_issues tr tr1 _ Hiss), <- (sameTask_key cfg t t' Hsame).
          fold (mappedIssue tr (syncKey cfg t)). rewrite Hmap, Hstatus.
          apply consistent_statusFor. }
    destruct Hnext as (t' & Htasks1 & Hsame & Hsames & Hagree1 & Hone_way).
    assert (Hkeys : map (syncKey cfg) ((done ++ [t']) ++ todo) =
                    map (syncKey cfg) (done ++ t :: todo)).
    { rewrite <- app_assoc, !map_app. cbn [map app].
      now rewrite (sameTask_key cfg t t' Hsame). }
    destruct (IH (done ++ [t'])%list tr1 r1 Hnum1 Htasks1) as
      (tr' & r' & ws' & Hpass & Heffs & Hkeep' & Hsames' & Hall & Hone_way');
      [now rewrite Hkeys | exact Hagree1 |].
    exists tr', r', (ws1 ++ ws')%list. cbn [pass]. rewrite Hone, Hpass.
    split; [reflexivity|]. split.
    { eapply effects_trans.
      - eapply effects_step; [constructor | | exact Heff]. cbn [map]. now left.
      - eapply effects_weaken; [|exact Heffs]. cbn [map]. intros k Hk. now right. }
    split; [eapply keepsText_trans; eauto|].
    split; [eapply sameTasks_trans; eauto|].
    split; [exact Hall|].
    intros Hm. rewrite (Hone_way' Hm). now apply Hone_way.
Qed.

(** One run: its effects are on the keys of the scanned tasks; afterwards
    every task of the files is settled and agrees with its issue. *)
Lemma syncRun_spec (cfg : Config) (tr : Tracker) (r : Repo) :
  numbered tr ->
  NoDup (map (syncKey cfg) (tasks r)) ->
  exists tr' r' ws,
    syncRun cfg (tr, r) = ((tr', r'), ws) /\
    effects (fun k => In k (map (syncKey cfg) (tasks r))) tr tr' /\
    numbered tr' /\
    Forall2 sameTask (tasks r) (tasks r') /\
    (forall t, In t (tasks r') -> settled tr' cfg t /\ agrees tr' cfg t) /\
    (mode cfg = one_way -> r' = r).
Proof.
  intros Hnum Hnd. unfold TaskSync.syncRun. cbn [snd].
  destruct (sync_pass_spec cfg (tasks r) tr r Hnum Hnd) as (tr1 & ws1 & Hp1 & He1 & Hset).
  pose proof (effects_numbered _ _ _ Hnum He1) as Hnum1.
  destruct (reconcile_pass_spec cfg (tasks r) [] tr1 r Hnum1 eq_refl Hnd)
    as (tr2 & r2 & ws2 & Hp2 & He2 & Hkeep & Hsames & Hagree & Hone);
    [intros t [] |].
  exists tr2, r2, (ws1 ++ ws2)%list. rewrite Hp1, Hp2.
  split; [reflexivity|]. split; [eapply effects_trans; eauto|].
  split; [eapply effects_numbered; eauto|]. split; [exact Hsames|].
  split; [|exact Hone].
  intros t' Ht'. split; [|now apply Hagree].
  destruct (sameTasks_In _ _ _ Hsames Ht') as (t & Ht & Hsame).
  eapply settled_sameTask; [exact Hsame|].
  eapply settled_keepsText; [exact Hkeep|]. now apply Hset.
Qed.

(** A run over settled, agreeing tasks writes nothing. *)
Lemma pass_quiet (one : Tracker * Repo -> TaskRecord -> (Tracker * Repo) * list Write)
    (st : Tracker * Repo) (ts : list TaskRecord) :
  (forall t, In t ts -> one st t = (st, [])) -> pass one st ts = (st, []).
Proof.
  induction ts as [|t more IH]; intros Hq; [reflexivity|].
  cbn [pass]. rewrite (Hq t (or_introl eq_refl)), IH; [reflexivity|].
  intros x Hx. apply Hq. now right.
Qed.

Lemma syncRun_quiet (cfg : Config) (st : Tracker * Repo) :
  (forall t, In t (tasks (snd st)) -> settled (fst st) cfg t /\ agrees (fst st) cfg t) ->
  syncRun cfg st = (st, []).
Proof.
  intros Hall. unfold TaskSync.syncRun.
  rewrite (pass_quiet (syncOne cfg)), (pass_quiet (reconcileOne cfg)); [reflexivity| |].
  - intros t Ht. apply reconcileOne_quiet. now apply Hall.
  - intros t Ht. apply syncOne_quiet. now apply Hall.
Qed.

End Engine.

End RunFacts.

(* ================================================================== *)
(** ** Runs at once, runs cut short *)

Module StepFacts.
Import TaskSync TrackerFacts EffectFacts EngineFacts RunFacts.
Local Open Scope nat_scope.

Lemma NoDup_app_remove {A : Type} (l1 l2 : list A) (a : A) :
  NoDup (l1 ++ a :: l2) -> NoDup (l1 ++ l2) /\ ~ In a (l1 ++ l2).
Proof. intros H. split; [eapply NoDup_remove_1 | eapply NoDup_remove_2]; eauto. Qed.

Section Engine.
Variable normalize : string -> string.
Variable template : string -> string -> string -> list string -> string.

Local Abbreviation step := (TaskSync.step normalize template).
Local Abbreviation steps := (TaskSync.steps normalize template).
Local Abbreviation syncOne := (TaskSync.syncOne normalize template).
Local Abbreviation syncRun := (TaskSync.syncRun normalize template).

(** What a job writes from a search that still holds is an effect on its key. *)
Lemma write_effect (cfg : Config) (tr : Tracker) (r : Repo) (t : TaskRecord)
    (found : list IssueRecord) :
  numbered tr ->
  Forall2 sameTag found (searchByKey tr (syncKey cfg t)) ->
  effect (syncKey cfg t) tr
    (fst (fst (perform cfg (tr, r) (decideSync normalize template cfg found t)))).
Proof.
  intros Hnum Hfound. unfold decideSync.
  pose proof (canonical_sameTag _ _ Hfound) as Hcan.
  destruct (canonical found) as [i|] eqn:Hi.
  - destruct (canonical (searchByKey tr (syncKey cfg t))) as [i'|] eqn:Hi'; [|contradiction].
    destruct Hcan as [Hn Hl].
    destruct (upToDate normalize template i t).
    + cbn. rewrite <- (tracker_eta tr) at 2. constructor.
    + cbn [perform applyWrite fst]. unfold updateIssue. rewrite Hn, Hl.
      apply (effect_touch (syncKey cfg t) tr i'
               (fun x => {| number := number x; issueTitle := desiredTitle t;
                            body := desiredBody template t; state := state x;
                            labels := labels i'; sourceRepo := sourceRepo x;
                            updatedAt := clock tr |})); auto.
  - destruct (canonical (searchByKey tr (syncKey cfg t))) eqn:Hi'; [contradiction|].
    apply canonical_None in Hi'.
    cbn [perform applyWrite fst]. unfold createIssue.
    apply effect_create; [exact Hi' | now apply issueKey_keyLabels | reflexivity].
Qed.

(** Every step is an effect on one key, and keeps the jobs in flight right. *)
Lemma step_effect (e e' : Engine) :
  numbered (remote e) -> tracks e -> step e e' ->
  (exists k, effect k (remote e) (remote e')) /\ tracks e'.
Proof.
  intros Hnum [Hnd Hfound] Hstep.
  destruct Hstep as [e cfg t Hfree|e before after j Hin Hphase
                    |e before after j found r Hin Hphase|e cfg r t|e before after j Hin];
    cbn [remote inflight].
  - split.
    + exists (syncKey cfg t). rewrite <- (tracker_eta (remote e)) at 2. constructor.
    + split; cbn [inflight remote map].
      * now constructor.
      * intros j found [<-|Hj] Hp; [discriminate | now apply Hfound].
  - split.
    + exists (jobKey j). rewrite <- (tracker_eta (remote e)) at 2. constructor.
    + rewrite Hin in Hnd, Hfound. split; cbn [inflight remote].
      * rewrite map_app in *. exact Hnd.
      * intros j' found Hj' Hp. apply in_app_or in Hj' as [Hj'|[<-|Hj']].
        -- apply Hfound; [apply in_or_app; now left | exact Hp].
        -- cbn in Hp. injection Hp as <-. apply sameTag_refl.
        -- apply Hfound; [apply in_or_app; right; now right | exact Hp].
  - rewrite Hin in Hnd, Hfound.
    assert (Hj : Forall2 sameTag found (searchByKey (remote e) (jobKey j)))
      by (apply Hfound; [apply in_or_app; right; now left | exact Hphase]).
    pose proof (write_effect (jobConfig j) (remote e) r (jobTask j) found Hnum Hj) as Heff.
    split; [now exists (jobKey j)|].
    rewrite map_app in Hnd. cbn [map] in Hnd.
    apply NoDup_app_remove in Hnd as [Hnd Hfresh]. rewrite <- map_app in Hnd, Hfresh.
    split; cbn [inflight remote]; [exact Hnd|].
    intros j' found' Hj' Hp.
    rewrite (effect_other _ _ _ (jobKey j') Hnum Heff).
    + apply Hfound; [|exact Hp].
      apply in_app_or in Hj' as [?|?]; apply in_or_app; [now left | right; now right].
    + intros Heq. apply Hfresh. unfold jobKey at 1. rewrite <- Heq. now apply in_map.
  - destruct (reconcileOne_spec cfg (remote e) r t Hnum)
      as (tr' & r' & ws & Hone & Heff & Hkeep & _).
    rewrite Hone. cbn [fst]. split; [now exists (syncKey cfg t)|].
    split; cbn [inflight remote]; [exact Hnd|].
    intros j found Hj Hp. specialize (Hfound j found Hj Hp).
    destruct (effect_search _ _ _ (jobKey j) Hnum Heff) as [Hsame|(_ & Hnil & new & Hnew)].
    + eapply sameTag_trans; eauto.
    + exfalso. specialize (Hkeep (jobKey j)). unfold mappedIssue in Hkeep.
      rewrite Hnil, Hnew in Hkeep. exact Hkeep.
  - split.
    + exists (jobKey j). rewrite <- (tracker_eta (remote e)) at 2. constructor.
    + rewrite Hin in Hnd, Hfound. rewrite map_app in Hnd. cbn [map] in Hnd.
      apply NoDup_app_remove in Hnd as [Hnd _]. rewrite <- map_app in Hnd.
      split; cbn [inflight remote]; [exact Hnd|].
      intros j' found Hj' Hp. apply Hfound; [|exact Hp].
      apply in_app_or in Hj' as [?|?]; apply in_or_app; [now left | right; now right].
Qed.

Lemma steps_effects (e e' : Engine) :
  numbered (remote e) -> tracks e -> steps e e' ->
  effects (fun _ => True) (remote e) (remote e') /\ numbered (remote e') /\ tracks e'.
Proof.
  intros Hnum Htr Hsteps. induction Hsteps as [|e2 e3 _ IH Hstep].
  - split; [constructor | auto].
  - destruct IH as (Heffs & Hnum2 & Htr2).
    destruct (step_effect e2 e3 Hnum2 Htr2 Hstep) as [[k Heff] Htr3].
    split; [eapply effects_step; eauto|].
    split; [eapply effect_numbered; eauto | exact Htr3].
Qed.

Lemma steps_trans (e1 e2 e3 : Engine) : steps e1 e2 -> steps e2 e3 -> steps e1 e3.
Proof.
  intros H12 H23. induction H23 as [|e3 e4 _ IH Hstep]; [assumption|].
  exact (steps_step normalize template e1 e3 e4 IH Hstep).
Qed.

(** The synchronizer on one task is a job that starts, searches and writes. *)
Lemma syncOne_steps (cfg : Config) (tr : Tracker) (r : Repo) (t : TaskRecord) :
  steps {| remote := tr; inflight := [] |}
        {| remote := fst (fst (syncOne cfg (tr, r) t)); inflight := [] |}.
Proof.
  set (j0 := {| jobConfig := cfg; jobTask := t; jobPhase := Searching |}).
  set (e0 := {| remote := tr; inflight := [] |}).
  set (e1 := {| remote := tr; inflight := [j0] |}).
  set (e2 := {| remote := tr;
                inflight := [{| jobConfig := cfg; jobTask := t;
                                jobPhase := Deciding (searchByKey tr (syncKey cfg t)) |}] |}).
  assert (H1 : step e0 e1)
    by (apply (step_start normalize template e0 cfg t); intros []).
  assert (H2 : step e1 e2)
    by (apply (step_search normalize template e1 [] [] j0 eq_refl eq_refl)).
  eapply steps_step; [eapply steps_step; [eapply steps_step; [apply steps_refl|]|]|].
  - exact H1.
  - exact H2.
  - apply (step_write normalize template e2 [] [] _ _ r eq_refl eq_refl).
Qed.

Lemma pass_steps (one : Tracker * Repo -> TaskRecord -> (Tracker * Repo) * list Write)
    (ts : list TaskRecord) :
  (forall tr r t, steps {| remote := tr; inflight := [] |}
                        {| remote := fst (fst (one (tr, r) t)); inflight := [] |}) ->
  forall tr r,
    steps {| remote := tr; inflight := [] |}
          {| remote := fst (fst (pass one (tr, r) ts)); inflight := [] |}.
Proof.
  intros Hone. induction ts as [|t more IH]; intros tr r; [apply steps_refl|].
  cbn [pass]. specialize (Hone tr r t).
  destruct (one (tr, r) t) as [[tr1 r1] ws1]. specialize (IH tr1 r1).
  destruct (pass one (tr1, r1) more) as [[tr2 r2] ws2].
  eapply steps_trans; eauto.
Qed.

(** A run is one of the executions of the engine. *)
Lemma syncRun_steps (cfg : Config) (tr : Tracker) (r : Repo) :
  steps {| remote := tr; inflight := [] |}
        {| remote := fst (fst (syncRun cfg (tr, r))); inflight := [] |}.
Proof.
  unfold TaskSync.syncRun. cbn [snd].
  pose proof (pass_steps (syncOne cfg) (tasks r) (syncOne_steps cfg) tr r) as H1.
  destruct (pass (syncOne cfg) (tr, r) (tasks r)) as [[tr1 r1] ws1].
  assert (Hrec : forall tr r t,
            steps {| remote := tr; inflight := [] |}
                  {| remote := fst (fst (reconcileOne cfg (tr, r) t)); inflight := [] |}).
  { intros tr0 r0 t. eapply steps_step; [apply steps_refl|].
    apply (step_reconcile normalize template {| remote := tr0; inflight := [] |} cfg r0 t). }
  pose proof (pass_steps (reconcileOne cfg) (tasks r) Hrec tr1 r1) as H2.
  destruct (pass (reconcileOne cfg) (tr1, r1) (tasks r)) as [[tr2 r2] ws2].
  eapply steps_trans; eauto.
Qed.

End Engine.

End StepFacts.

(* ================================================================== *)
(** ** The claims about the synchronisation engine *)

Module SyncSpec.
Import TaskSync TrackerFacts EffectFacts EngineFacts RunFacts StepFacts ParserFacts.
Import SyncScenarios.
Local Open Scope nat_scope.

Lemma sameTask_sym (t t' : TaskRecord) : sameTask t t' -> sameTask t' t.
Proof. intros (?&?&?&?&?&?). repeat split; congruence. Qed.

Lemma sameTasks_In_l (l l' : list TaskRecord) (t : TaskRecord) :
  Forall2 sameTask l l' -> In t l -> exists t', In t' l' /\ sameTask t t'.
Proof.
  induction 1 as [|a b l l' Hab _ IH]; cbn; [tauto|].
  intros [<-|Hin]; [exists b; auto|].
  destruct (IH Hin) as (t' & Ht' & Hs). exists t'. auto.
Qed.

Lemma mapped_search_nonempty (tr : Tracker) (k : SyncKey) (i : IssueRecord) :
  mappedIssue tr k = Some i -> searchByKey tr k <> [].
Proof.
  unfold mappedIssue. intros H Hnil. rewrite Hnil in H. discriminate.
Qed.

(** What a chain of effects keeps for a key that has an issue. *)
Lemma effects_mapped (P : SyncKey -> Prop) (tr tr' : Tracker) (k : SyncKey)
    (i : IssueRecord) :
  numbered tr -> effects P tr tr' -> mappedIssue tr k = Some i ->
  issuesOf tr' k = issuesOf tr k /\
  exists i', mappedIssue tr' k = Some i' /\ number i' = number i.
Proof.
  intros Hnum Heffs Hmap.
  pose proof (effects_keep P tr tr' k Hnum Heffs (mapped_search_nonempty _ _ _ Hmap))
    as Hkeep.
  split.
  - unfold issuesOf. symmetry. eapply Forall2_length, Hkeep.
  - pose proof (canonical_sameTag _ _ Hkeep) as Hcan.
    unfold mappedIssue in *. rewrite Hmap in Hcan.
    destruct (canonical (searchByKey tr' k)) as [i'|]; [|contradiction].
    exists i'. split; [reflexivity|]. symmetry. apply Hcan.
Qed.





(** C5: the parser is total, and of the lines of a file it turns every
    well-formed one into a record and every malformed one (a checklist line
    with no id, or with an id an earlier line has) into a warning; so nine
    well-formed lines and one malformed line give nine records and one warning. *)
Theorem parser_skips_malformed_lines
    (inProgressMarker : string -> bool) (spec file : string) (lines : list string)
    (good bad : nat) :
  count_lines well_formed [] lines = good ->
  count_lines malformed [] lines = bad ->
  exists records warnings,
    parseLines inProgressMarker spec file lines = (records, warnings) /\
    List.length records = good /\
    List.length warnings = bad.
Proof.
  intros Hgood Hbad. unfold parseLines. eexists _, _. split; [reflexivity|].
  rewrite !length_rev, length_map.
  destruct (parse_from_counts inProgressMarker spec file lines []
              {| parsed := []; warned := [] |} 1) as [Hp Hw].
  - intros id. reflexivity.
  - rewrite Hp, Hw. cbn [parsed warned List.length]. lia.
Qed.

Lemma parser_skips_malformed_lines_witness :
  exists records warnings,
    parseLines noMarker "kiro-workers" ".kiro/specs/kiro-workers/tasks.md" tenLines =
      (records, warnings) /\
    List.length records = 9 /\
    List.length warnings = 1.
Proof.
  apply parser_skips_malformed_lines.
  - reflexivity.
  - reflexivity.
Defined.





(** The scenario of section 8: the first sync opens issue 1 for task 2.1 with
    its labels; once the task is completed the next sync closes issue 1; a
    third sync writes nothing. *)
Example scenario_task_2_1 :
  issues afterFirstSync =
    [{| number := 1; issueTitle := "2.1 Create download utility";
        body := issueBody "kiro-workers" "2.1" "" ["1.1"; "9.4"];
        state := open; labels := ["spec:kiro-workers"; "task:2.1"];
        sourceRepo := "major0/kiro-workers"; updatedAt := 1 |}] /\
  snd (syncRun asIs issueBody oneWay (afterFirstSync, repoWith completed)) =
    [SetIssueState 1 closed] /\
  snd (syncRun asIs issueBody oneWay
         (fst (syncRun asIs issueBody oneWay (afterFirstSync, repoWith completed)))) = [].
Proof. repeat split; reflexivity. Qed.

End SyncSpec.
